(** * BPMix: Camelot key adjacency, transition scoring and greedy sequencing

    A shallow embedding of the sequencing core of [app.py]
    ([CAMELOT_MAP], [camelot_neighbors], [transition_score],
    [order_songs_greedy]) together with the properties of it that the
    specification states, and of the code around it ([analyze_file],
    [upload_files], [order_songs]) with the signal processing, the
    artwork extraction and the text of exceptions as parameters.

    Modelling conventions.
    - A song is the JSON object built by [upload_files]: the fields
      [title], [bpm], [key], [artwork].  JSON [null] (Python [None]) is
      [None].  A [bpm] that is present is a JSON integer, a Python [int]
      of any size, as produced by [round(tempo)] in [analyze_file],
      hence a [Z].  A number written with a fraction or an exponent is a
      Python [float] and is outside this model, as is an object that
      lacks one of the fields.
    - [bpm_diff * 0.5] and the addition of the key penalty are binary64
      operations.  A binary64 value is represented by the rational it
      denotes ([Q]); the conversion of the integer [bpm_diff] and the
      addition round to 53 significant bits, to nearest, ties to even
      ([round53]), and the conversion raises [OverflowError] from 2^1024
      on ([py_float]).
    - [int] and [str] follow CPython 3.11 and later, where a conversion
      of more than 4300 digits raises [ValueError].
    - A Python exception is the [Raise] branch of [result]. *)

From Stdlib Require Import ZArith QArith List String Ascii Bool Lia.
From Stdlib Require Import Permutation Sorted DecimalString DecimalPos DecimalZ.
Import ListNotations.

Local Open Scope string_scope.
Local Open Scope list_scope.

(** ** Exceptions and the error monad *)

Inductive exn : Type :=
| TypeError
| ValueError
| IndexError
| OverflowError
| OutOfFuel.   (* not a Python exception: the loop model ran out of fuel *)

Inductive result (A : Type) : Type :=
| Ok (a : A)
| Raise (e : exn).

Arguments Ok {A} a.
Arguments Raise {A} e.

Definition bind {A B : Type} (m : result A) (k : A -> result B) : result B :=
  match m with
  | Ok a => k a
  | Raise e => Raise e
  end.

Notation "x <- m ;; k" := (bind m (fun x => k))
  (at level 61, m at next level, right associativity).

(** ** Songs *)

Record track : Type := mkTrack {
  title : string;
  bpm : option Z;
  key : option string;
  artwork : option string
}.

Definition track_eq_dec (a b : track) : {a = b} + {a <> b}.
Proof.
  decide equality;
    solve [ apply string_dec
          | decide equality; apply string_dec
          | decide equality; apply Z.eq_dec ].
Defined.

(** [a == b] on two song dictionaries. *)
Definition track_eqb (a b : track) : bool :=
  if track_eq_dec a b then true else false.

(** ** Python string and integer primitives used by [camelot_neighbors] *)

(** [s[:-1]] *)
Fixpoint drop_last (s : string) : string :=
  match s with
  | EmptyString => EmptyString
  | String c s' =>
      match s' with
      | EmptyString => EmptyString
      | String _ _ => String c (drop_last s')
      end
  end.

(** [s[-1]], which raises [IndexError] on the empty string. *)
Fixpoint last_char (s : string) : result ascii :=
  match s with
  | EmptyString => Raise IndexError
  | String c s' =>
      match s' with
      | EmptyString => Ok c
      | String _ _ => last_char s'
      end
  end.

Definition digit_of (c : ascii) : option Z :=
  let n := Z.of_N (N_of_ascii c) in
  if ((48 <=? n) && (n <=? 57))%Z then Some (n - 48)%Z else None.

Fixpoint parse_digits (acc : Z) (s : string) : result Z :=
  match s with
  | EmptyString => Ok acc
  | String c s' =>
      match digit_of c with
      | Some d => parse_digits (10 * acc + d)%Z s'
      | None => Raise ValueError
      end
  end.

(** The default of [sys.int_max_str_digits]. *)
Definition MAX_STR_DIGITS : Z := 4300.

(** The digits of a literal, after its sign: more than
    [MAX_STR_DIGITS] of them raise, as does a character that is not a
    digit. *)
Definition parse_literal (s : string) : result Z :=
  if (MAX_STR_DIGITS <? Z.of_nat (String.length s))%Z then Raise ValueError
  else parse_digits 0 s.

(** [int(s)] on a plain decimal literal with an optional sign.  The
    forms with surrounding blanks or underscores, which Python also
    accepts, raise here; no value of [CAMELOT_MAP] has that shape. *)
Definition py_int (s : string) : result Z :=
  match s with
  | EmptyString => Raise ValueError
  | String c s' =>
      if Ascii.eqb c "-" then
        match s' with
        | EmptyString => Raise ValueError
        | _ => n <- parse_literal s' ;; Ok (- n)%Z
        end
      else if Ascii.eqb c "+" then
        match s' with
        | EmptyString => Raise ValueError
        | _ => parse_literal s'
        end
      else parse_literal s
  end.

(** The decimal text of an integer [n]: what [str(n)] returns when it
    returns. *)
Definition py_str (n : Z) : string :=
  NilZero.string_of_int (Z.to_int n).

(** The number of decimal digits of [n]. *)
Definition digits (n : Z) : Z :=
  Z.of_nat (String.length (py_str (Z.abs n))).

(** [f"{n}"] for an integer [n]: [ValueError] beyond [MAX_STR_DIGITS]
    digits. *)
Definition py_format (n : Z) : result string :=
  if (MAX_STR_DIGITS <? digits n)%Z then Raise ValueError
  else Ok (py_str n).

(** The text of the code at position [num] in mode [mode]. *)
Definition fmt_key (num : Z) (mode : ascii) : string :=
  py_str num ++ String mode EmptyString.

(** [f"{num}{mode}"] *)
Definition py_fmt_key (num : Z) (mode : ascii) : result string :=
  t <- py_format num ;; Ok (t ++ String mode EmptyString)%string.

(** ** Key-adjacency model *)

Definition CAMELOT_MAP : list (string * string) :=
  [ ("C", "8B"); ("C#", "3B"); ("D", "10B"); ("D#", "5B"); ("E", "12B");
    ("F", "7B"); ("F#", "2B"); ("G", "9B"); ("G#", "4B"); ("A", "11B");
    ("A#", "6B"); ("B", "1B") ].

Fixpoint dict_get (d : list (string * string)) (k : string) : option string :=
  match d with
  | [] => None
  | (k', v) :: d' => if String.eqb k' k then Some v else dict_get d' k
  end.

(** [CAMELOT_MAP.get(k)], where [k] is a string or [None]. *)
Definition CAMELOT_MAP_get (k : option string) : option string :=
  match k with
  | None => None
  | Some s => dict_get CAMELOT_MAP s
  end.

Definition flip_mode (mode : ascii) : ascii :=
  if Ascii.eqb mode "B" then "A"%char else "B"%char.

Definition camelot_neighbors (camelot_key : string) : result (list string) :=
  num <- py_int (drop_last camelot_key) ;;
  mode <- last_char camelot_key ;;
  same <- py_fmt_key num mode ;;
  clockwise <- py_fmt_key (num mod 12 + 1)%Z mode ;;
  counterclockwise <- py_fmt_key ((num - 2) mod 12 + 1)%Z mode ;;
  switched <- py_fmt_key num (flip_mode mode) ;;
  Ok [same; clockwise; counterclockwise; switched].

(** ** Transition scorer *)

(** [a - b] on two JSON numbers-or-null. *)
Definition py_sub (a b : option Z) : result Z :=
  match a, b with
  | Some x, Some y => Ok (x - y)%Z
  | _, _ => Raise TypeError
  end.

(** Truth value of the result of a [dict.get]: [None] and the empty
    string are false. *)
Definition truthy (k : option string) : bool :=
  match k with
  | None => false
  | Some EmptyString => false
  | Some (String _ _) => true
  end.

(** [x in l] for a list of strings. *)
Definition str_in (x : string) (l : list string) : bool :=
  existsb (fun y => String.eqb y x) l.

Definition key_penalty_of (key1 key2 : option string) : result Z :=
  if negb (truthy key1) || negb (truthy key2) then Ok 100%Z
  else
    match key1, key2 with
    | Some k1, Some k2 =>
        ns <- camelot_neighbors k1 ;;
        if str_in k2 ns then Ok 0%Z else Ok 50%Z
    | _, _ => Ok 100%Z
    end.

(** The integer of 53 significant bits nearest to [n], ties to the
    even significand: for [n] from 2^53 on, the [s] low bits are
    rounded away. *)
Definition round53 (n : Z) : Z :=
  if (n <? 2 ^ 53)%Z then n
  else
    let s := (Z.log2 n - 52)%Z in
    let lo := Z.shiftr n s in
    let rem := (n - Z.shiftl lo s)%Z in
    let half := (2 ^ (s - 1))%Z in
    let m := if (rem <? half)%Z then lo
             else if (half <? rem)%Z then (lo + 1)%Z
             else if Z.even lo then lo else (lo + 1)%Z in
    Z.shiftl m s.

(** The conversion of a non-negative [int] to [float], which the
    multiplication by [0.5] applies to [bpm_diff]: the nearest binary64,
    or [OverflowError] when that would be 2^1024 or more.  The result
    is an integer. *)
Definition py_float (n : Z) : result Z :=
  let r := round53 n in
  if (r <? 2 ^ 1024)%Z then Ok r else Raise OverflowError.

(** The binary64 nearest to [h / 2], for an integer [h] from 0 to
    2^1024. *)
Definition float_halves (h : Z) : Q := round53 h # 2.

(** In [key_penalty + bpm_diff * 0.5] the product is the float of
    [bpm_diff] halved, which is exact, and the sum is the binary64
    nearest to [(2 * key_penalty + x) / 2], where [x] is that float. *)
Definition transition_score (song1 song2 : track) : result Q :=
  d <- py_sub (bpm song1) (bpm song2) ;;
  let bpm_diff := Z.abs d in
  let key1 := CAMELOT_MAP_get (key song1) in
  let key2 := CAMELOT_MAP_get (key song2) in
  key_penalty <- key_penalty_of key1 key2 ;;
  x <- py_float bpm_diff ;;
  Ok (float_halves (2 * key_penalty + x)).

(** ** Greedy sequencer *)

(** [a < b] on two sort keys; comparing with [None] raises. *)
Definition py_lt (a b : option Z) : result bool :=
  match a, b with
  | Some x, Some y => Ok (x <? y)%Z
  | _, _ => Raise TypeError
  end.

(** One insertion of a stable sort: [x], which preceded every element of
    [l] in the input, passes only the elements whose key is strictly
    smaller. *)
Fixpoint insert_by_bpm (x : track) (l : list track) : result (list track) :=
  match l with
  | [] => Ok [x]
  | y :: l' =>
      b <- py_lt (bpm y) (bpm x) ;;
      if b then (r <- insert_by_bpm x l' ;; Ok (y :: r))
      else Ok (x :: l)
  end.

(** [sorted(songs, key=lambda s: s['bpm'])]: a stable sort.  A list of
    at most one element is returned without any comparison. *)
Fixpoint sorted_by_bpm (songs : list track) : result (list track) :=
  match songs with
  | [] => Ok []
  | x :: l => s <- sorted_by_bpm l ;; insert_by_bpm x s
  end.

Definition Qltb (x y : Q) : bool := negb (Qle_bool y x).

(** The scan of [min(..., key=keyf)]: the running best is replaced only
    by a strictly smaller key. *)
Fixpoint min_scan (keyf : track -> result Q) (best : track) (bestv : Q)
    (l : list track) : result track :=
  match l with
  | [] => Ok best
  | s :: l' =>
      v <- keyf s ;;
      if Qltb v bestv then min_scan keyf s v l'
      else min_scan keyf best bestv l'
  end.

Definition py_min (keyf : track -> result Q) (l : list track) : result track :=
  match l with
  | [] => Raise ValueError
  | s :: l' => v <- keyf s ;; min_scan keyf s v l'
  end.

(** [l.remove(x)]: deletes the first element equal to [x]. *)
Fixpoint list_remove (x : track) (l : list track) : result (list track) :=
  match l with
  | [] => Raise ValueError
  | y :: l' =>
      if track_eqb y x then Ok l'
      else (r <- list_remove x l' ;; Ok (y :: r))
  end.

(** [l[-1]] *)
Fixpoint py_last (l : list track) : result track :=
  match l with
  | [] => Raise IndexError
  | x :: l' =>
      match l' with
      | [] => Ok x
      | _ :: _ => py_last l'
      end
  end.

(** The body of the [while songs:] loop, on the pair of lists it
    updates. *)
Definition greedy_step (ordered songs : list track)
  : result (list track * list track) :=
  last <- py_last ordered ;;
  next_song <- py_min (fun s => transition_score last s) songs ;;
  songs' <- list_remove next_song songs ;;
  Ok (ordered ++ [next_song], songs').

(** The [while songs:] loop.  Each iteration removes one song, so
    [fuel] at least the number of unplaced songs is never used up
    ([greedy_loop_Raise], [greedy_loop_total]). *)
Fixpoint greedy_loop (fuel : nat) (ordered songs : list track)
  : result (list track) :=
  match songs with
  | [] => Ok ordered
  | _ :: _ =>
      match fuel with
      | O => Raise OutOfFuel
      | S fuel' =>
          st <- greedy_step ordered songs ;;
          greedy_loop fuel' (fst st) (snd st)
      end
  end.

(** [songs.pop(0)] on the sorted list seeds [ordered]; the loop then
    runs on the remaining songs. *)
Definition order_songs_greedy (songs : list track) : result (list track) :=
  match songs with
  | [] => Ok []
  | _ :: _ =>
      sorted <- sorted_by_bpm songs ;;
      match sorted with
      | [] => Raise IndexError
      | first :: rest => greedy_loop (List.length rest) [first] rest
      end
  end.

(** ** Test data and specification vocabulary *)

Definition song (k : string) (b : Z) : track :=
  mkTrack (k ++ ".mp3") (Some b) (Some k) None.

(** The twelve codes that [CAMELOT_MAP] can return. *)
Definition CAMELOT_CODES : list string := map snd CAMELOT_MAP.

Definition PITCH_CLASSES : list string :=
  ["C"; "C#"; "D"; "D#"; "E"; "F"; "F#"; "G"; "G#"; "A"; "A#"; "B"].

(** Wheel positions in the order of the entries of [CAMELOT_MAP]. *)
Definition TABLE_POSITIONS : list Z := [8; 3; 10; 5; 12; 7; 2; 9; 4; 11; 6; 1]%Z.

Ltac split_cases H :=
  repeat match type of H with
         | _ \/ _ => destruct H as [H | H]
         end.

Ltac concrete_nodup :=
  repeat (constructor; [simpl; intuition discriminate |]); constructor.

Ltac eval_digit :=
  match goal with
  | |- context [digit_of ?c] =>
      let v := eval vm_compute in (digit_of c) in
      change (digit_of c) with v
  end; cbv beta iota.

(** The neighbour test gives the same answer in both directions on the
    codes of the table (checked on the 144 pairs). *)
Definition neighbors_agree (va vb : string) : bool :=
  match camelot_neighbors va, camelot_neighbors vb with
  | Ok na, Ok nb => Bool.eqb (str_in vb na) (str_in va nb)
  | _, _ => false
  end.

(** A song whose [bpm] is a number. *)
Definition numeric (t : track) : Prop := exists b, bpm t = Some b.

(** A song whose tempo is small enough for the difference to any other
    such tempo to convert to [float]; and one for which these
    differences, and the scores, are exact. *)
Definition float_tempo (t : track) : Prop :=
  exists b, bpm t = Some b /\ (Z.abs b < 2 ^ 1022)%Z.

Definition exact_tempo (t : track) : Prop :=
  exists b, bpm t = Some b /\ (Z.abs b <= 2 ^ 51)%Z.

(** The tempo of a song whose [bpm] is numeric. *)
Definition tempo (t : track) : Z :=
  match bpm t with
  | Some b => b
  | None => 0%Z
  end.

(** [x] is the earliest song of minimal tempo in [l]: every song before
    it has a strictly larger tempo, every song after it a tempo at least
    as large. *)
Definition first_min_bpm (x : track) (l before after : list track) : Prop :=
  l = before ++ x :: after /\
  Forall (fun y => (tempo x < tempo y)%Z) before /\
  Forall (fun y => (tempo x <= tempo y)%Z) after.

(** The key of [y] under [keyf] is defined and strictly above,
    respectively at least, [q]. *)
Definition key_above (keyf : track -> result Q) (q : Q) (y : track) : Prop :=
  exists qy, keyf y = Ok qy /\ (q < qy)%Q.

Definition key_at_least (keyf : track -> result Q) (q : Q) (y : track) : Prop :=
  exists qy, keyf y = Ok qy /\ (q <= qy)%Q.

Definition key_defined (keyf : track -> result Q) (y : track) : Prop :=
  exists qy, keyf y = Ok qy.

(** The 24 codes of the wheel: positions 1..12 in both modes. *)
Definition WHEEL_CODES : list string :=
  flat_map (fun p => [fmt_key p "A"; fmt_key p "B"])
           [1; 2; 3; 4; 5; 6; 7; 8; 9; 10; 11; 12]%Z.

(** Two wheel positions are equal or next to each other on the circle
    of twelve. *)
Definition adjacent (p1 p2 : Z) : bool :=
  let d := ((p2 - p1) mod 12)%Z in
  ((d =? 0) || (d =? 1) || (d =? 11))%Z.

(** [rest] was built from [tail] by nearest-neighbour choices: its head
    has a score from [tail] that no later song undercuts, and so on
    from that head. *)
Inductive greedy_chain : track -> list track -> Prop :=
| chain_nil (tail : track) : greedy_chain tail []
| chain_cons (tail next : track) (rest : list track) (q : Q) :
    transition_score tail next = Ok q ->
    Forall (key_at_least (fun s => transition_score tail s) q) rest ->
    greedy_chain next rest ->
    greedy_chain tail (next :: rest).

(** The run of the loop from the state [ordered], [songs] to the
    output [out]: at every turn the song taken is the first of smallest
    score from the last placed song. *)
Inductive greedy_run : list track -> list track -> list track -> Prop :=
| run_done (ordered : list track) : greedy_run ordered [] ordered
| run_step (ordered : list track) (tail : track)
           (before : list track) (next : track) (after : list track)
           (q : Q) (out : list track) :
    py_last ordered = Ok tail ->
    transition_score tail next = Ok q ->
    Forall (key_above (fun s => transition_score tail s) q) before ->
    Forall (key_at_least (fun s => transition_score tail s) q) after ->
    greedy_run (ordered ++ [next]) (before ++ after) out ->
    greedy_run ordered (before ++ next :: after) out.

(** The sequencer with the scorer taken as a parameter, to state which
    of its results do not depend on the scorer. *)
Definition greedy_step_by (score : track -> track -> result Q)
    (ordered songs : list track) : result (list track * list track) :=
  last <- py_last ordered ;;
  next_song <- py_min (fun s => score last s) songs ;;
  songs' <- list_remove next_song songs ;;
  Ok (ordered ++ [next_song], songs').

Fixpoint greedy_loop_by (score : track -> track -> result Q) (fuel : nat)
    (ordered songs : list track) : result (list track) :=
  match songs with
  | [] => Ok ordered
  | _ :: _ =>
      match fuel with
      | O => Raise OutOfFuel
      | S fuel' =>
          st <- greedy_step_by score ordered songs ;;
          greedy_loop_by score fuel' (fst st) (snd st)
      end
  end.

Definition order_songs_greedy_by (score : track -> track -> result Q)
    (songs : list track) : result (list track) :=
  match songs with
  | [] => Ok []
  | _ :: _ =>
      sorted <- sorted_by_bpm songs ;;
      match sorted with
      | [] => Raise IndexError
      | first :: rest => greedy_loop_by score (List.length rest) [first] rest
      end
  end.

(** Ascending tempo. *)
Definition tempo_le (a b : track) : Prop := (tempo a <= tempo b)%Z.

(** Both keys are recognized and the code of [b] is among the
    neighbours of the code of [a]: the ideal transition. *)
Definition harmonic (a b : track) : Prop :=
  exists c1 c2 ns,
    CAMELOT_MAP_get (key a) = Some c1 /\
    CAMELOT_MAP_get (key b) = Some c2 /\
    camelot_neighbors c1 = Ok ns /\ In c2 ns.

(** The penalty between the B codes of two positions is the one that
    [adjacent] predicts. *)
Definition penalty_agrees (p1 p2 : Z) : bool :=
  match key_penalty_of (Some (fmt_key p1 "B")) (Some (fmt_key p2 "B")) with
  | Ok v => (v =? (if adjacent p1 p2 then 0 else 50))%Z
  | Raise _ => false
  end.

(** A code is among its own neighbours. *)
Definition self_neighbor (c : string) : bool :=
  match camelot_neighbors c with
  | Ok ns => str_in c ns
  | Raise _ => false
  end.

(** ** Analysis and the two routes *)

(** The pitch-class names of [analyze_file], indexed by chroma row. *)
Definition notes : list string :=
  ["C"; "C#"; "D"; "D#"; "E"; "F"; "F#"; "G"; "G#"; "A"; "A#"; "B"].

(** The body of a JSON response: a list of songs or [{"error": msg}]. *)
Inductive json_body : Type :=
| JTracks (l : list track)
| JError (msg : string).

Section Routes.

(** An uploaded file and its [filename]. *)
Variable file : Type.
Variable filename : file -> string.

(** The signal processing of [analyze_file], which is outside the
    program: the librosa calls and the final [round], giving the rounded
    tempo and the index [chroma_mean.argmax()], or an exception. *)
Variable dsp : file -> result (Z * nat).

(** [extract_artwork] catches its own exceptions and returns the base64
    text of the cover or [None]; mutagen and PIL are outside the
    program. *)
Variable extract_artwork : file -> option string.

(** [str(e)] for an exception. *)
Variable str_exn : exn -> string.

Definition analyze_file (f : file) : result (Z * string) :=
  r <- dsp f ;;
  match nth_error notes (snd r) with
  | Some k => Ok (fst r, k)
  | None => Raise IndexError
  end.

(** One turn of the [for f in files] loop of [upload_files]. *)
Definition upload_one (f : file) : track :=
  match analyze_file f with
  | Ok (b, k) => mkTrack (filename f) (Some b) (Some k) (extract_artwork f)
  | Raise _ => mkTrack (filename f) None None (extract_artwork f)
  end.

(** [upload_files]: the request has a ['files'] part or not; the answer
    is a body and a status code. *)
Definition upload_files (files : option (list file)) : json_body * Z :=
  match files with
  | None => (JError "No files part", 400%Z)
  | Some fs => (JTracks (map upload_one fs), 200%Z)
  end.

(** [order_songs] on a request whose JSON is a list of songs. *)
Definition order_songs (songs : list track) : json_body * Z :=
  match order_songs_greedy songs with
  | Ok ordered => (JTracks ordered, 200%Z)
  | Raise e => (JError (str_exn e), 500%Z)
  end.

End Routes.

(** Songs with tempos outside the range of [float], or of exact
    floats. *)
Definition huge : Z := (10 ^ 309)%Z.

Definition odd53 : Z := (2 ^ 53 + 1)%Z.

(** Stand-ins for the uploaded files and their analysis in worked
    instances: file [n] has the tempo [100 + n] and the chroma row [n]
    when [n] is below 12, and cannot be analysed otherwise. *)
Definition sample_filename (n : nat) : string := "track.mp3".

Definition sample_dsp (n : nat) : result (Z * nat) :=
  if (n <? 12)%nat then Ok (Z.of_nat (100 + n), n) else Raise ValueError.

Definition sample_artwork (n : nat) : option string := None.

Definition sample_str_exn (e : exn) : string := "error".

(** A song reduced to the two fields that the sequencer reads. *)
Definition strip (t : track) : track :=
  mkTrack EmptyString (bpm t) (key t) None.

(** ** Evaluation on sample inputs *)

Example neighbors_8B :
  camelot_neighbors "8B" = Ok ["8B"; "9B"; "7B"; "8A"].
Proof. reflexivity. Qed.

Example neighbors_1B :
  camelot_neighbors "1B" = Ok ["1B"; "2B"; "12B"; "1A"].
Proof. reflexivity. Qed.

Example neighbors_12A :
  camelot_neighbors "12A" = Ok ["12A"; "1A"; "11A"; "12B"].
Proof. reflexivity. Qed.

Example order_scenario :
  order_songs_greedy [song "C" 120; song "G" 122; song "F#" 90]
  = Ok [song "F#" 90; song "C" 120; song "G" 122].
Proof. vm_compute. reflexivity. Qed.


(** Tempos beyond the exact range of binary64: the score of 2^53 + 1
    against 0 is rounded, that of 10^309 against 0 overflows, and two
    scores that differ before rounding tie after it. *)
Example rounded_score :
  transition_score (song "C" odd53) (song "C" 0) = Ok (9007199254740992 # 2).
Proof. vm_compute. reflexivity. Qed.

Example overflow_score :
  transition_score (song "C" huge) (song "C" 0) = Raise OverflowError.
Proof. vm_compute. reflexivity. Qed.

Example float_of_1e23 : round53 (10 ^ 23) = 99999999999999991611392%Z.
Proof. vm_compute. reflexivity. Qed.

Example float_of_largest :
  py_float (2 ^ 1024 - 2 ^ 970 - 1) = Ok (2 ^ 1024 - 2 ^ 971)%Z /\
  py_float (2 ^ 1024 - 2 ^ 970) = Raise OverflowError.
Proof. split; vm_compute; reflexivity. Qed.

Example tie_after_rounding :
  order_songs_greedy [song "C" 0; song "F#" (2 ^ 61); song "G" (2 ^ 61 + 2)]
  = Ok [song "C" 0; song "F#" (2 ^ 61); song "G" (2 ^ 61 + 2)].
Proof. vm_compute. reflexivity. Qed.

(** ** Basic facts on the primitives *)

Lemma str_in_In (x : string) (l : list string) :
  str_in x l = true <-> In x l.
Proof.
  unfold str_in. rewrite existsb_exists. split.
  - intros [y [Hy E]]. apply String.eqb_eq in E. now subst.
  - intros H. exists x. split; [assumption | apply String.eqb_refl].
Qed.

Lemma dict_get_In (d : list (string * string)) (k v : string) :
  dict_get d k = Some v -> In (k, v) d.
Proof.
  induction d as [| [k' v'] d IH]; simpl; [discriminate |].
  destruct (String.eqb k' k) eqn:E.
  - intros H. injection H as <-. apply String.eqb_eq in E. subst. now left.
  - intros H. right. now apply IH.
Qed.

Lemma recognized_code (k : option string) (v : string) :
  CAMELOT_MAP_get k = Some v -> In v CAMELOT_CODES.
Proof.
  destruct k as [s |]; [| discriminate].
  unfold CAMELOT_MAP_get. intros H. apply dict_get_In in H.
  unfold CAMELOT_CODES. change v with (snd (s, v)). now apply in_map.
Qed.

(** A code of the table is a non-empty string on which
    [camelot_neighbors] does not raise. *)
Lemma code_well_formed (v : string) :
  In v CAMELOT_CODES ->
  truthy (Some v) = true /\ exists ns, camelot_neighbors v = Ok ns.
Proof.
  unfold CAMELOT_CODES. simpl.
  intros H.
  repeat (destruct H as [<- | H]; [split; [reflexivity | eexists; reflexivity] |]).
  contradiction.
Qed.

Lemma key_penalty_recognized (k1 k2 : option string) (v1 v2 : string) :
  CAMELOT_MAP_get k1 = Some v1 -> CAMELOT_MAP_get k2 = Some v2 ->
  exists ns, camelot_neighbors v1 = Ok ns /\
    key_penalty_of (Some v1) (Some v2) = if str_in v2 ns then Ok 0%Z else Ok 50%Z.
Proof.
  intros H1 H2.
  apply recognized_code, code_well_formed in H1.
  apply recognized_code, code_well_formed in H2.
  destruct H1 as [T1 [ns Hns]]. destruct H2 as [T2 _].
  exists ns. split; [assumption |].
  unfold key_penalty_of. rewrite T1, T2. simpl. now rewrite Hns.
Qed.

Lemma key_penalty_unknown (k1 k2 : option string) :
  k1 = None \/ k2 = None -> key_penalty_of k1 k2 = Ok 100%Z.
Proof.
  intros [-> | ->]; unfold key_penalty_of; simpl; [reflexivity |].
  now rewrite orb_true_r.
Qed.

(** Every pair of keys has a penalty: the scorer raises only on the
    tempo subtraction. *)
Lemma key_penalty_total (k1 k2 : option string) :
  exists p, key_penalty_of (CAMELOT_MAP_get k1) (CAMELOT_MAP_get k2) = Ok p.
Proof.
  destruct (CAMELOT_MAP_get k1) as [v1 |] eqn:E1.
  - destruct (CAMELOT_MAP_get k2) as [v2 |] eqn:E2.
    + destruct (key_penalty_recognized _ _ _ _ E1 E2) as [ns [_ ->]].
      destruct (str_in v2 ns); eexists; reflexivity.
    + exists 100%Z. apply key_penalty_unknown. now right.
  - exists 100%Z. apply key_penalty_unknown. now left.
Qed.

(** ** The Camelot table and the wheel *)

(** C10. [CAMELOT_MAP] has the twelve pitch-class labels as its keys,
    each once; its values are the codes [fmt_key p "B"] for twelve
    pairwise distinct positions [p] that are exactly 1..12; so looking a
    label up is injective, and every B-mode code is the image of a
    label. *)
Theorem CAMELOT_MAP_bijection :
  map fst CAMELOT_MAP = PITCH_CLASSES /\
  NoDup PITCH_CLASSES /\
  List.length PITCH_CLASSES = 12%nat /\
  map snd CAMELOT_MAP = map (fun p => fmt_key p "B") TABLE_POSITIONS /\
  NoDup TABLE_POSITIONS /\
  (forall p, In p TABLE_POSITIONS <-> (1 <= p <= 12)%Z) /\
  NoDup (map snd CAMELOT_MAP) /\
  (forall k1 k2 v,
      dict_get CAMELOT_MAP k1 = Some v -> dict_get CAMELOT_MAP k2 = Some v ->
      k1 = k2) /\
  (forall p, (1 <= p <= 12)%Z ->
      exists k, In k PITCH_CLASSES /\
                dict_get CAMELOT_MAP k = Some (fmt_key p "B")).
Proof.
  split; [reflexivity |].
  split; [unfold PITCH_CLASSES; concrete_nodup |].
  split; [reflexivity |].
  split; [reflexivity |].
  split; [unfold TABLE_POSITIONS; concrete_nodup |].
  split.
  { intros p. unfold TABLE_POSITIONS. simpl. split.
    - intros H. split_cases H; try contradiction; subst; lia.
    - intros H.
      assert (p = 1 \/ p = 2 \/ p = 3 \/ p = 4 \/ p = 5 \/ p = 6 \/ p = 7 \/
              p = 8 \/ p = 9 \/ p = 10 \/ p = 11 \/ p = 12)%Z as C by lia.
      split_cases C; subst; tauto. }
  split; [simpl; concrete_nodup |].
  split.
  { intros k1 k2 v H1 H2.
    apply dict_get_In in H1. apply dict_get_In in H2.
    simpl in H1, H2.
    split_cases H1; try contradiction; injection H1 as <- <-;
      split_cases H2; try contradiction; inversion H2; reflexivity. }
  intros p H.
  assert (p = 1 \/ p = 2 \/ p = 3 \/ p = 4 \/ p = 5 \/ p = 6 \/ p = 7 \/
          p = 8 \/ p = 9 \/ p = 10 \/ p = 11 \/ p = 12)%Z as C by lia.
  split_cases C; subst p.
  - exists "B". split; [simpl; tauto | reflexivity].
  - exists "F#". split; [simpl; tauto | reflexivity].
  - exists "C#". split; [simpl; tauto | reflexivity].
  - exists "G#". split; [simpl; tauto | reflexivity].
  - exists "D#". split; [simpl; tauto | reflexivity].
  - exists "A#". split; [simpl; tauto | reflexivity].
  - exists "F". split; [simpl; tauto | reflexivity].
  - exists "C". split; [simpl; tauto | reflexivity].
  - exists "G". split; [simpl; tauto | reflexivity].
  - exists "D". split; [simpl; tauto | reflexivity].
  - exists "A". split; [simpl; tauto | reflexivity].
  - exists "E". split; [simpl; tauto | reflexivity].
Qed.

(** C4. On the code of a wheel position 1..12 with mode A or B,
    [camelot_neighbors] returns four pairwise distinct codes: the code
    itself, the clockwise one at [(position mod 12) + 1], the
    counterclockwise one at [((position - 2) mod 12) + 1] (floor modulo),
    both of the same mode and again in 1..12, and the same position with
    the other mode; position 1 has position 12 among its neighbours and
    position 12 has position 1. *)
Theorem camelot_neighbors_wheel (position : Z) (mode : ascii) :
  (1 <= position <= 12)%Z ->
  mode = "A"%char \/ mode = "B"%char ->
  let cw := (position mod 12 + 1)%Z in
  let ccw := ((position - 2) mod 12 + 1)%Z in
  exists ns,
    camelot_neighbors (fmt_key position mode) = Ok ns /\
    ns = [ fmt_key position mode; fmt_key cw mode; fmt_key ccw mode;
           fmt_key position (flip_mode mode) ] /\
    List.length ns = 4%nat /\
    NoDup ns /\
    (1 <= cw <= 12)%Z /\ (1 <= ccw <= 12)%Z /\
    (mode = "A"%char -> flip_mode mode = "B"%char) /\
    (mode = "B"%char -> flip_mode mode = "A"%char) /\
    (position = 1%Z -> In (fmt_key 12 mode) ns) /\
    (position = 12%Z -> In (fmt_key 1 mode) ns).
Proof.
  intros Hp Hm cw ccw.
  assert (position = 1 \/ position = 2 \/ position = 3 \/ position = 4 \/
          position = 5 \/ position = 6 \/ position = 7 \/ position = 8 \/
          position = 9 \/ position = 10 \/ position = 11 \/
          position = 12)%Z as C by lia.
  assert (1 <= cw <= 12)%Z as Hcw
    by (unfold cw; pose proof (Z.mod_pos_bound position 12); lia).
  assert (1 <= ccw <= 12)%Z as Hccw
    by (unfold ccw; pose proof (Z.mod_pos_bound (position - 2) 12); lia).
  eexists. split; [| split; [reflexivity |]].
  - destruct Hm; subst mode; split_cases C; subst position; reflexivity.
  - split; [reflexivity |].
    split.
    { destruct Hm; subst mode; split_cases C; subst position;
        vm_compute; concrete_nodup. }
    split; [assumption |]. split; [assumption |].
    split; [intros ->; reflexivity |].
    split; [intros ->; reflexivity |].
    split; intros ->; destruct Hm; subst mode; vm_compute; tauto.
Qed.

Lemma camelot_neighbors_wheel_witness :
  exists ns,
    camelot_neighbors (fmt_key 1 "B") = Ok ns /\
    ns = ["1B"; "2B"; "12B"; "1A"].
Proof.
  destruct (camelot_neighbors_wheel 1 "B") as [ns [H [E _]]];
    [lia | right; reflexivity |].
  exists ns. split; [exact H | exact E].
Defined.

(** ** Rounding to binary64 *)

Lemma bind_Ok {A B : Type} (a : A) (k : A -> result B) : bind (Ok a) k = k a.
Proof. reflexivity. Qed.

Lemma bind_Raise {A B : Type} (e : exn) (k : A -> result B) :
  bind (Raise e) k = Raise e.
Proof. reflexivity. Qed.

Lemma round53_small (n : Z) : (n < 2 ^ 53)%Z -> round53 n = n.
Proof.
  intros H. unfold round53.
  destruct (Z.ltb_spec n (2 ^ 53)) as [_ | C]; [reflexivity | lia].
Qed.

(** From 2^53 on, the rounded value stays between 2^53 and the next
    power of two above [n]. *)
Lemma round53_large (n : Z) :
  (2 ^ 53 <= n)%Z ->
  (2 ^ 53 <= round53 n <= 2 ^ (Z.log2 n + 1))%Z.
Proof.
  intros H. unfold round53.
  destruct (Z.ltb_spec n (2 ^ 53)) as [C | _]; [lia |].
  assert (0 < n)%Z as Hn by (pose proof (Z.pow_pos_nonneg 2 53); lia).
  assert (53 <= Z.log2 n)%Z as HL by (apply Z.log2_le_pow2; lia).
  destruct (Z.log2_spec n Hn) as [Hlo Hhi].
  set (L := Z.log2 n) in *.
  set (s := (L - 52)%Z).
  assert (1 <= s)%Z as Hs by (unfold s; lia).
  assert (2 ^ L = 2 ^ 52 * 2 ^ s)%Z as EL
    by (rewrite <- Z.pow_add_r by lia; f_equal; unfold s; lia).
  assert (2 ^ (L + 1) = 2 ^ 53 * 2 ^ s)%Z as EL1
    by (rewrite <- Z.pow_add_r by lia; f_equal; unfold s; lia).
  assert (2 ^ 53 <= 2 ^ L)%Z as H53 by (apply Z.pow_le_mono_r; lia).
  replace (Z.succ L) with (L + 1)%Z in Hhi by lia.
  rewrite !Z.shiftl_mul_pow2, Z.shiftr_div_pow2 by lia.
  assert (0 < 2 ^ s)%Z as HP by (apply Z.pow_pos_nonneg; lia).
  pose proof (Z.mul_div_le n (2 ^ s) HP) as D1.
  pose proof (Z.mul_succ_div_gt n (2 ^ s) HP) as D2.
  set (lo := (n / 2 ^ s)%Z) in *.
  assert (2 ^ 53 = 2 * 2 ^ 52)%Z as E53 by reflexivity.
  assert (0 < 2 ^ 52)%Z as H52 by reflexivity.
  remember (2 ^ s)%Z as P eqn:EP.
  remember (2 ^ 52)%Z as A eqn:EA.
  remember (2 ^ 53)%Z as B eqn:EB.
  remember (2 ^ L)%Z as TL eqn:ETL.
  remember (2 ^ (L + 1))%Z as TL1 eqn:ETL1.
  clear EP EA EB ETL ETL1.
  assert (A <= lo)%Z as Llo by nia.
  assert (lo < B)%Z as Ulo by nia.
  destruct (_ <? _)%Z; [nia |].
  destruct (_ <? _)%Z; [nia |].
  destruct (Z.even lo); nia.
Qed.

Lemma round53_lower (n : Z) : (Z.min n (2 ^ 53) <= round53 n)%Z.
Proof.
  destruct (Z.lt_ge_cases n (2 ^ 53)) as [H | H].
  - rewrite round53_small by exact H. lia.
  - pose proof (round53_large n H). lia.
Qed.

Lemma round53_zero (n : Z) : (0 <= n)%Z -> round53 n = 0%Z -> n = 0%Z.
Proof.
  intros Hn H. pose proof (round53_lower n) as L. rewrite H in L.
  assert (0 < 2 ^ 53)%Z by reflexivity. lia.
Qed.

Lemma round53_nonneg (n : Z) : (0 <= n)%Z -> (0 <= round53 n)%Z.
Proof.
  intros Hn. pose proof (round53_lower n).
  assert (0 < 2 ^ 53)%Z by reflexivity. lia.
Qed.

Lemma py_float_Ok (n x : Z) : py_float n = Ok x -> x = round53 n.
Proof.
  unfold py_float. destruct (_ <? _)%Z; [| discriminate].
  intros H. now injection H.
Qed.

Lemma py_float_Raise (n : Z) (e : exn) :
  py_float n = Raise e -> e = OverflowError.
Proof.
  unfold py_float. destruct (_ <? _)%Z; [discriminate |].
  intros H. now injection H.
Qed.

(** Below 2^1023 the conversion returns. *)
Lemma py_float_range (n : Z) :
  (n < 2 ^ 1023)%Z -> py_float n = Ok (round53 n).
Proof.
  intros H. unfold py_float.
  assert (2 ^ 53 < 2 ^ 1023)%Z as H1 by (apply Z.pow_lt_mono_r; lia).
  assert (2 ^ 1023 < 2 ^ 1024)%Z as H2 by (apply Z.pow_lt_mono_r; lia).
  destruct (Z.ltb_spec (round53 n) (2 ^ 1024)) as [_ | C]; [reflexivity |].
  exfalso.
  destruct (Z.lt_ge_cases n (2 ^ 53)) as [S | S].
  - rewrite round53_small in C by exact S. lia.
  - pose proof (round53_large n S) as [_ U].
    assert (0 < n)%Z as Hn by (pose proof (Z.pow_pos_nonneg 2 53); lia).
    assert (Z.log2 n < 1023)%Z as HL by (apply Z.log2_lt_pow2; lia).
    assert (2 ^ (Z.log2 n + 1) <= 2 ^ 1023)%Z
      by (apply Z.pow_le_mono_r; lia).
    lia.
Qed.

(** Below 2^53 it is exact. *)
Lemma py_float_exact (n : Z) : (n < 2 ^ 53)%Z -> py_float n = Ok n.
Proof.
  intros H.
  assert (2 ^ 53 < 2 ^ 1023)%Z as H1 by (apply Z.pow_lt_mono_r; lia).
  rewrite py_float_range by lia. now rewrite round53_small.
Qed.

(** ** The score of two songs with numeric tempos *)

Lemma transition_score_numeric (a b : track) (x y : Z) :
  bpm a = Some x -> bpm b = Some y ->
  transition_score a b =
    (p <- key_penalty_of (CAMELOT_MAP_get (key a)) (CAMELOT_MAP_get (key b)) ;;
     f <- py_float (Z.abs (x - y)) ;;
     Ok (float_halves (2 * p + f))).
Proof.
  intros Ha Hb. unfold transition_score. rewrite Ha, Hb. reflexivity.
Qed.

Lemma key_penalty_values (k1 k2 : option string) (p : Z) :
  key_penalty_of (CAMELOT_MAP_get k1) (CAMELOT_MAP_get k2) = Ok p ->
  (p = 0 \/ p = 50 \/ p = 100)%Z.
Proof.
  destruct (CAMELOT_MAP_get k1) as [v1 |] eqn:E1.
  - destruct (CAMELOT_MAP_get k2) as [v2 |] eqn:E2.
    + destruct (key_penalty_recognized _ _ _ _ E1 E2) as [ns [_ ->]].
      destruct (str_in v2 ns); intros H; injection H as <-; auto.
    + rewrite key_penalty_unknown by auto. intros H; injection H as <-; auto.
  - rewrite key_penalty_unknown by auto. intros H; injection H as <-; auto.
Qed.

(** When the tempo difference is at most 2^52 nothing is rounded. *)
Lemma transition_score_exact (a b : track) (x y p : Z) :
  bpm a = Some x -> bpm b = Some y ->
  (Z.abs (x - y) <= 2 ^ 52)%Z ->
  key_penalty_of (CAMELOT_MAP_get (key a)) (CAMELOT_MAP_get (key b)) = Ok p ->
  transition_score a b = Ok ((2 * p + Z.abs (x - y)) # 2).
Proof.
  intros Ha Hb Hd Hp.
  rewrite (transition_score_numeric _ _ _ _ Ha Hb), Hp.
  pose proof (key_penalty_values _ _ _ Hp) as V.
  assert (2 ^ 53 = 2 * 2 ^ 52)%Z as E53 by reflexivity.
  assert (200 < 2 ^ 52)%Z as H52 by reflexivity.
  cbn [bind]. rewrite py_float_exact by lia. cbn [bind].
  unfold float_halves. rewrite round53_small by lia. reflexivity.
Qed.

Lemma halves_value (p d : Z) :
  ((2 * p + d) # 2 == inject_Z p + (1 # 2) * inject_Z d)%Q.
Proof.
  unfold Qeq, Qplus, Qmult, inject_Z. cbn [Qnum Qden]. lia.
Qed.

(** Songs in the range of [float_tempo] always have a score. *)
Lemma transition_score_total (a b : track) :
  float_tempo a -> float_tempo b -> exists q, transition_score a b = Ok q.
Proof.
  intros [x [Ha Hx]] [y [Hb Hy]].
  rewrite (transition_score_numeric _ _ _ _ Ha Hb).
  destruct (key_penalty_total (key a) (key b)) as [p ->]. cbn [bind].
  assert (2 ^ 1023 = 2 * 2 ^ 1022)%Z as E
    by (change 1023%Z with (Z.succ 1022); now rewrite Z.pow_succ_r).
  rewrite py_float_range by lia. cbn [bind]. eexists; reflexivity.
Qed.

(** With numeric tempos the scorer raises only [OverflowError]. *)
Lemma transition_score_Raise (a b : track) (e : exn) :
  numeric a -> numeric b ->
  transition_score a b = Raise e -> e = OverflowError.
Proof.
  intros [x Ha] [y Hb].
  rewrite (transition_score_numeric _ _ _ _ Ha Hb).
  destruct (key_penalty_total (key a) (key b)) as [p ->]. cbn [bind].
  destruct (py_float (Z.abs (x - y))) as [f | e'] eqn:E; cbn [bind].
  - discriminate.
  - intros H. injection H as <-. now apply py_float_Raise in E.
Qed.

(** ** Transition scores *)

Lemma neighbors_agree_codes :
  forallb (fun va => forallb (neighbors_agree va) CAMELOT_CODES) CAMELOT_CODES
  = true.
Proof. vm_compute. reflexivity. Qed.

Lemma str_in_symmetric (va vb : string) (na nb : list string) :
  In va CAMELOT_CODES -> In vb CAMELOT_CODES ->
  camelot_neighbors va = Ok na -> camelot_neighbors vb = Ok nb ->
  str_in vb na = str_in va nb.
Proof.
  intros Ha Hb Hna Hnb.
  pose proof neighbors_agree_codes as H.
  rewrite forallb_forall in H. specialize (H va Ha).
  rewrite forallb_forall in H. specialize (H vb Hb).
  unfold neighbors_agree in H. rewrite Hna, Hnb in H.
  now apply Bool.eqb_prop in H.
Qed.

Lemma key_penalty_symmetric (k1 k2 : option string) :
  key_penalty_of (CAMELOT_MAP_get k1) (CAMELOT_MAP_get k2) =
  key_penalty_of (CAMELOT_MAP_get k2) (CAMELOT_MAP_get k1).
Proof.
  destruct (CAMELOT_MAP_get k1) as [v1 |] eqn:E1;
    destruct (CAMELOT_MAP_get k2) as [v2 |] eqn:E2.
  - destruct (key_penalty_recognized _ _ _ _ E1 E2) as [n1 [Hn1 ->]].
    destruct (key_penalty_recognized _ _ _ _ E2 E1) as [n2 [Hn2 ->]].
    rewrite (str_in_symmetric v1 v2 n1 n2);
      eauto using recognized_code.
  - rewrite !key_penalty_unknown; auto.
  - rewrite !key_penalty_unknown; auto.
  - reflexivity.
Qed.


(** C1 (amended).  With both tempos integers whose difference is at
    most 2^52 in absolute value, the score is the key penalty plus half
    the absolute tempo difference, exactly, where the penalty is 100 as
    soon as one of the two keys is [null] or is not a key of
    [CAMELOT_MAP], and for two recognized keys it is 0 when the code of
    [next] is in [camelot_neighbors] of the code of [current] and 50
    when it is not. *)
Theorem transition_score_tiers (current next : track) (b1 b2 : Z) :
  bpm current = Some b1 -> bpm next = Some b2 ->
  (Z.abs (b1 - b2) <= 2 ^ 52)%Z ->
  let delta := inject_Z (Z.abs (b1 - b2)) in
  (CAMELOT_MAP_get (key current) = None \/ CAMELOT_MAP_get (key next) = None ->
   exists q, transition_score current next = Ok q /\
             (q == 100 + (1 # 2) * delta)%Q) /\
  (key current = None \/ key next = None ->
   exists q, transition_score current next = Ok q /\
             (q == 100 + (1 # 2) * delta)%Q) /\
  (forall c1 c2,
      CAMELOT_MAP_get (key current) = Some c1 ->
      CAMELOT_MAP_get (key next) = Some c2 ->
      exists ns, camelot_neighbors c1 = Ok ns /\
        (In c2 ns ->
         exists q, transition_score current next = Ok q /\
                   (q == 0 + (1 # 2) * delta)%Q) /\
        (~ In c2 ns ->
         exists q, transition_score current next = Ok q /\
                   (q == 50 + (1 # 2) * delta)%Q)).
Proof.
  intros H1 H2 Hd delta.
  assert (forall p,
             key_penalty_of (CAMELOT_MAP_get (key current))
                            (CAMELOT_MAP_get (key next)) = Ok p ->
             exists q, transition_score current next = Ok q /\
                       (q == inject_Z p + (1 # 2) * delta)%Q) as Hscore.
  { intros p Hp. rewrite (transition_score_exact _ _ _ _ _ H1 H2 Hd Hp).
    eexists. split; [reflexivity | apply halves_value]. }
  assert (CAMELOT_MAP_get (key current) = None \/
          CAMELOT_MAP_get (key next) = None ->
          exists q, transition_score current next = Ok q /\
                    (q == 100 + (1 # 2) * delta)%Q) as Hunknown.
  { intros H. apply (Hscore 100%Z). now apply key_penalty_unknown. }
  split; [exact Hunknown |].
  split.
  { intros [E | E]; apply Hunknown; rewrite E; simpl; auto. }
  intros c1 c2 E1 E2.
  destruct (key_penalty_recognized _ _ _ _ E1 E2) as [ns [Hns Hp]].
  exists ns. split; [exact Hns |].
  rewrite <- E1, <- E2 in Hp.
  split; intros Hin.
  - apply str_in_In in Hin. rewrite Hin in Hp. exact (Hscore 0%Z Hp).
  - destruct (str_in c2 ns) eqn:E.
    + apply str_in_In in E. contradiction.
    + exact (Hscore 50%Z Hp).
Qed.

Lemma transition_score_tiers_witness :
  (exists q,
      transition_score (song "C" 120) (song "G" 128) = Ok q /\
      (q == 0 + (1 # 2) * inject_Z (Z.abs (120 - 128)))%Q) /\
  (exists q,
      transition_score (song "C" 120) (song "F#" 128) = Ok q /\
      (q == 50 + (1 # 2) * inject_Z (Z.abs (120 - 128)))%Q) /\
  (exists q,
      transition_score (mkTrack "a.mp3" (Some 120%Z) None None)
                       (song "G" 128) = Ok q /\
      (q == 100 + (1 # 2) * inject_Z (Z.abs (120 - 128)))%Q).
Proof.
  assert (Z.abs (120 - 128) <= 2 ^ 52)%Z as Hd by (vm_compute; discriminate).
  split; [| split].
  - destruct (transition_score_tiers (song "C" 120) (song "G" 128) 120 128
                eq_refl eq_refl Hd) as [_ [_ T]].
    destruct (T "8B" "9B" eq_refl eq_refl) as [ns [Hns [Hin _]]].
    apply Hin. vm_compute in Hns. injection Hns as <-. simpl. tauto.
  - destruct (transition_score_tiers (song "C" 120) (song "F#" 128) 120 128
                eq_refl eq_refl Hd) as [_ [_ T]].
    destruct (T "8B" "2B" eq_refl eq_refl) as [ns [Hns [_ Hout]]].
    apply Hout. vm_compute in Hns. injection Hns as <-.
    simpl. intuition discriminate.
  - destruct (transition_score_tiers
                (mkTrack "a.mp3" (Some 120%Z) None None) (song "G" 128)
                120 128 eq_refl eq_refl Hd) as [T _].
    apply T. left. reflexivity.
Defined.

(** C1, as first stated, fails where binary64 rounds or overflows:
    between two songs in the key C, ideal neighbours, with tempos
    2^53 + 1 and 0 the score is 2^52, not half of 2^53 + 1; and with
    tempos 10^309 and 0 the conversion raises [OverflowError]. *)
Lemma transition_score_tiers_counterexample :
  harmonic (song "C" odd53) (song "C" 0) /\
  (exists q,
      transition_score (song "C" odd53) (song "C" 0) = Ok q /\
      (q == 4503599627370496)%Q) /\
  ~ (exists q,
        transition_score (song "C" odd53) (song "C" 0) = Ok q /\
        (q == 0 + (1 # 2) * inject_Z (Z.abs (odd53 - 0)))%Q) /\
  transition_score (song "C" huge) (song "C" 0) = Raise OverflowError.
Proof.
  split.
  { exists "8B", "8B", ["8B"; "9B"; "7B"; "8A"].
    repeat split; try reflexivity. simpl. tauto. }
  split; [eexists; split; vm_compute; reflexivity |].
  split; [| vm_compute; reflexivity].
  intros [q [H E]]. vm_compute in H. injection H as <-.
  vm_compute in E. discriminate.
Qed.

(** C6. With both tempos numeric the score does not depend on the order
    of its two arguments: an unresolved key on either side gives the
    penalty 100 in both orders, and for two recognized keys the code of
    one is among the neighbours of the other exactly when the converse
    holds. *)
Theorem transition_score_symmetric (a b : track) (x y : Z) :
  bpm a = Some x -> bpm b = Some y ->
  transition_score a b = transition_score b a /\
  (CAMELOT_MAP_get (key a) = None \/ CAMELOT_MAP_get (key b) = None ->
   key_penalty_of (CAMELOT_MAP_get (key a)) (CAMELOT_MAP_get (key b)) = Ok 100%Z /\
   key_penalty_of (CAMELOT_MAP_get (key b)) (CAMELOT_MAP_get (key a)) = Ok 100%Z) /\
  (forall ca cb,
      CAMELOT_MAP_get (key a) = Some ca -> CAMELOT_MAP_get (key b) = Some cb ->
      exists na nb,
        camelot_neighbors ca = Ok na /\ camelot_neighbors cb = Ok nb /\
        (In cb na <-> In ca nb)).
Proof.
  intros Ha Hb. split; [| split].
  - rewrite (transition_score_numeric _ _ _ _ Ha Hb).
    rewrite (transition_score_numeric _ _ _ _ Hb Ha).
    rewrite key_penalty_symmetric.
    replace (y - x)%Z with (- (x - y))%Z by lia.
    now rewrite Z.abs_opp.
  - intros H. split; apply key_penalty_unknown; tauto.
  - intros ca cb Ea Eb.
    destruct (key_penalty_recognized _ _ _ _ Ea Eb) as [na [Hna _]].
    destruct (key_penalty_recognized _ _ _ _ Eb Ea) as [nb [Hnb _]].
    exists na, nb. split; [exact Hna |]. split; [exact Hnb |].
    rewrite <- !str_in_In.
    rewrite (str_in_symmetric ca cb na nb);
      eauto using recognized_code. reflexivity.
Qed.

Lemma transition_score_symmetric_witness :
  transition_score (mkTrack "a.mp3" (Some 120%Z) (Some "C") None)
                   (mkTrack "b.mp3" (Some 128%Z) None None)
  = transition_score (mkTrack "b.mp3" (Some 128%Z) None None)
                     (mkTrack "a.mp3" (Some 120%Z) (Some "C") None).
Proof.
  apply (transition_score_symmetric
           (mkTrack "a.mp3" (Some 120%Z) (Some "C") None)
           (mkTrack "b.mp3" (Some 128%Z) None None)
           120 128 eq_refl eq_refl).
Defined.


(** ** The sequencer on small inputs *)

(** C9. The empty list is ordered to the empty list and a list of one
    song to itself, whatever the fields of that song. *)
Theorem order_songs_greedy_small :
  order_songs_greedy [] = Ok [] /\
  forall x : track, order_songs_greedy [x] = Ok [x].
Proof.
  split; [reflexivity |]. intros x. reflexivity.
Qed.

(** C8. On (C, 120), (G, 122), (F#, 90) the output is F#, C, G: F# is
    the slowest; its code 2B has neither 8B (C) nor 9B (G) among its
    neighbours, so the scores from F# are 50 + 15 = 65 to C and
    50 + 16 = 66 to G, and C is taken first. *)
Theorem scenario_A :
  let c := song "C" 120 in
  let g := song "G" 122 in
  let fs := song "F#" 90 in
  order_songs_greedy [c; g; fs] = Ok [fs; c; g] /\
  CAMELOT_MAP_get (key fs) = Some "2B" /\
  CAMELOT_MAP_get (key c) = Some "8B" /\
  CAMELOT_MAP_get (key g) = Some "9B" /\
  camelot_neighbors "2B" = Ok ["2B"; "3B"; "1B"; "2A"] /\
  (exists q, transition_score fs c = Ok q /\
             (q == 50 + (1 # 2) * 30)%Q /\ (q == 65)%Q) /\
  (exists q, transition_score fs g = Ok q /\
             (q == 50 + (1 # 2) * 32)%Q /\ (q == 66)%Q) /\
  greedy_step [fs] [c; g] = Ok ([fs; c], [g]).
Proof.
  intros c g fs.
  split; [vm_compute; reflexivity |].
  split; [reflexivity |]. split; [reflexivity |]. split; [reflexivity |].
  split; [reflexivity |].
  split; [eexists; split; [vm_compute; reflexivity | split; reflexivity] |].
  split; [eexists; split; [vm_compute; reflexivity | split; reflexivity] |].
  vm_compute. reflexivity.
Qed.

(** ** Sorting by tempo *)

Lemma py_lt_numeric (x y : track) :
  numeric x -> numeric y ->
  py_lt (bpm x) (bpm y) = Ok (tempo x <? tempo y)%Z.
Proof.
  intros [a Ha] [b Hb]. unfold tempo. rewrite Ha, Hb. reflexivity.
Qed.

Lemma insert_by_bpm_spec (x : track) (l : list track) :
  numeric x -> Forall numeric l ->
  exists r,
    insert_by_bpm x l = Ok r /\ Permutation (x :: l) r /\
    match l with
    | [] => r = [x]
    | h :: _ =>
        if (tempo h <? tempo x)%Z then exists r', r = h :: r' else r = x :: l
    end.
Proof.
  intros Hx Hl. induction Hl as [| h l Hh Hl IH].
  - exists [x]. simpl. auto.
  - simpl. rewrite (py_lt_numeric h x Hh Hx). simpl.
    destruct (tempo h <? tempo x)%Z.
    + destruct IH as [r [-> [P _]]]. simpl.
      exists (h :: r). split; [reflexivity |]. split; [| eauto].
      apply perm_trans with (h :: x :: l); [apply perm_swap |].
      now apply perm_skip.
    + exists (x :: h :: l). auto.
Qed.

Lemma sorted_by_bpm_spec (l : list track) :
  Forall numeric l ->
  exists s,
    sorted_by_bpm l = Ok s /\ Permutation l s /\
    (l <> [] ->
     exists x rest before after, s = x :: rest /\ first_min_bpm x l before after).
Proof.
  intros Hl. induction Hl as [| a l Ha Hl IH].
  - exists []. simpl. split; [reflexivity |]. split; [constructor |].
    intros C. now elim C.
  - destruct IH as [s [Hs [P Hhead]]].
    assert (Forall numeric s) as Hns
      by (eapply Permutation_Forall; eassumption).
    destruct (insert_by_bpm_spec a s Ha Hns) as [r [Hr [Pr Hsh]]].
    exists r. simpl. rewrite Hs. simpl.
    split; [exact Hr |].
    split; [apply perm_trans with (a :: s); [now apply perm_skip | exact Pr] |].
    intros _.
    destruct l as [| b l'].
    + apply Permutation_nil in P. subst s. subst r.
      exists a, [], [], []. repeat split; constructor.
    + destruct Hhead as [h [rest [before [after [-> [E [Hb Haf]]]]]]];
        [discriminate |].
      destruct (tempo h <? tempo a)%Z eqn:C.
      * destruct Hsh as [r' ->]. apply Z.ltb_lt in C.
        exists h, r', (a :: before), after.
        split; [reflexivity |]. split; [rewrite E; reflexivity |].
        split; [constructor; assumption | assumption].
      * subst r. apply Z.ltb_ge in C.
        exists a, (h :: rest), [], (b :: l').
        split; [reflexivity |]. split; [reflexivity |].
        split; [constructor |].
        rewrite E. apply Forall_app. split.
        -- eapply Forall_impl; [| exact Hb]. simpl. intros; lia.
        -- constructor; [exact C |].
           eapply Forall_impl; [| exact Haf]. simpl. intros; lia.
Qed.

(** *** A [null] tempo among two or more songs

    The sort compares every song of a list of two or more with another
    one, so a [null] tempo makes it raise before any score is taken. *)

Lemma py_lt_Ok (x y : track) (b : bool) :
  py_lt (bpm x) (bpm y) = Ok b -> numeric x /\ numeric y.
Proof.
  unfold py_lt, numeric.
  destruct (bpm x) as [u |]; [| discriminate].
  destruct (bpm y) as [v |]; [| discriminate]. eauto.
Qed.

Lemma insert_by_bpm_Ok (x : track) (l r : list track) :
  insert_by_bpm x l = Ok r ->
  Permutation (x :: l) r /\
  match l with
  | [] => True
  | h :: _ => numeric h /\ numeric x
  end.
Proof.
  revert r. induction l as [| h l IH]; simpl; intros r H.
  - injection H as <-. auto.
  - destruct (py_lt (bpm h) (bpm x)) as [b | e] eqn:C; [| discriminate].
    apply py_lt_Ok in C. split; [| exact C]. simpl in H.
    destruct b.
    + destruct (insert_by_bpm x l) as [r' | e]; [| discriminate].
      simpl in H. injection H as <-.
      destruct (IH r' eq_refl) as [P _].
      apply perm_trans with (h :: x :: l); [apply perm_swap |].
      now apply perm_skip.
    + injection H as <-. apply Permutation_refl.
Qed.

Lemma insert_by_bpm_Raise (x : track) (l : list track) (e : exn) :
  insert_by_bpm x l = Raise e -> e = TypeError.
Proof.
  induction l as [| h l IH]; simpl; [discriminate |].
  unfold py_lt.
  destruct (bpm h); [| intros H; now injection H];
    destruct (bpm x); [| intros H; now injection H].
  simpl. destruct (_ <? _)%Z; [| discriminate].
  destruct (insert_by_bpm x l); [discriminate |].
  simpl. intros H. injection H as <-. now apply IH.
Qed.

Lemma sorted_by_bpm_Ok (l s : list track) :
  sorted_by_bpm l = Ok s ->
  Permutation l s /\ ((2 <= List.length l)%nat -> Forall numeric s).
Proof.
  revert s. induction l as [| x l IH]; simpl; intros s H.
  - injection H as <-. split; [constructor | simpl; lia].
  - destruct (sorted_by_bpm l) as [s' | e]; [| discriminate]. simpl in H.
    destruct (IH s' eq_refl) as [P Hn].
    destruct (insert_by_bpm_Ok x s' s H) as [Ps Hcmp].
    split; [apply perm_trans with (x :: s'); [now apply perm_skip | exact Ps] |].
    intros Hlen.
    apply (Permutation_Forall Ps).
    destruct s' as [| h t].
    + apply Permutation_length in P. simpl in P. lia.
    + destruct Hcmp as [Hh Hx]. constructor; [exact Hx |].
      destruct t as [| h' t'].
      * constructor; [exact Hh | constructor].
      * apply Hn. apply Permutation_length in P. simpl in P. lia.
Qed.

Lemma sorted_by_bpm_Raise (l : list track) (e : exn) :
  sorted_by_bpm l = Raise e -> e = TypeError.
Proof.
  induction l as [| x l IH]; simpl; [discriminate |].
  destruct (sorted_by_bpm l) as [s' | e']; simpl.
  - apply insert_by_bpm_Raise.
  - intros H. injection H as <-. now apply IH.
Qed.

Lemma order_songs_greedy_null_bpm (songs : list track) :
  (2 <= List.length songs)%nat ->
  Exists (fun t => bpm t = None) songs ->
  order_songs_greedy songs = Raise TypeError.
Proof.
  intros Hlen Hex.
  destruct songs as [| a l]; [simpl in Hlen; lia |].
  unfold order_songs_greedy.
  destruct (sorted_by_bpm (a :: l)) as [s | e] eqn:E.
  - exfalso. destruct (sorted_by_bpm_Ok _ _ E) as [P Hn].
    specialize (Hn Hlen).
    apply (Permutation_Forall (Permutation_sym P)) in Hn.
    apply Exists_exists in Hex. destruct Hex as [t [Hin Ht]].
    rewrite Forall_forall in Hn. destruct (Hn t Hin) as [b Hb]. congruence.
  - apply sorted_by_bpm_Raise in E. subst e. reflexivity.
Qed.

(** ** The first-minimum scan and the removal *)

Lemma Qltb_lt (x y : Q) : Qltb x y = true <-> (x < y)%Q.
Proof.
  unfold Qltb. rewrite negb_true_iff. split.
  - intros H. apply Qnot_le_lt. intros C.
    apply Qle_bool_iff in C. congruence.
  - intros H. destruct (Qle_bool y x) eqn:E; [| reflexivity].
    apply Qle_bool_iff in E. exfalso. exact (Qlt_not_le _ _ H E).
Qed.

Lemma Qltb_ge (x y : Q) : Qltb x y = false <-> (y <= x)%Q.
Proof.
  unfold Qltb. rewrite negb_false_iff. apply Qle_bool_iff.
Qed.

Section Scan.

Variable keyf : track -> result Q.

Lemma key_above_lower (q q' : Q) (l : list track) :
  (q' < q)%Q -> Forall (key_above keyf q) l -> Forall (key_above keyf q') l.
Proof.
  intros H. apply Forall_impl. intros y [qy [E L]].
  exists qy. split; [exact E | eapply Qlt_trans; eassumption].
Qed.

Lemma key_at_least_lower (q q' : Q) (l : list track) :
  (q' < q)%Q -> Forall (key_at_least keyf q) l -> Forall (key_above keyf q') l.
Proof.
  intros H. apply Forall_impl. intros y [qy [E L]].
  exists qy. split; [exact E | eapply Qlt_le_trans; eassumption].
Qed.

Lemma min_scan_spec (l : list track) :
  forall (pre : list track) (best : track) (mid : list track) (bestv : Q),
    keyf best = Ok bestv ->
    Forall (key_above keyf bestv) pre ->
    Forall (key_at_least keyf bestv) mid ->
    Forall (key_defined keyf) l ->
    exists before next after q,
      pre ++ best :: mid ++ l = before ++ next :: after /\
      min_scan keyf best bestv l = Ok next /\
      keyf next = Ok q /\
      Forall (key_above keyf q) before /\
      Forall (key_at_least keyf q) after.
Proof.
  induction l as [| s l IH]; intros pre best mid bestv Hb Hpre Hmid Hl.
  - exists pre, best, mid, bestv. rewrite app_nil_r. simpl. auto.
  - inversion Hl as [| ? ? [v Hv] Hl']; subst.
    simpl. rewrite Hv. simpl.
    destruct (Qltb v bestv) eqn:C.
    + apply Qltb_lt in C.
      destruct (IH (pre ++ best :: mid) s [] v Hv) as
          [before [next [after [q [E R]]]]]; [| constructor | assumption |].
      { apply Forall_app. split; [now apply key_above_lower with bestv |].
        constructor; [exists bestv; auto |].
        now apply key_at_least_lower with bestv. }
      exists before, next, after, q. split; [| exact R].
      rewrite <- E, <- app_assoc. reflexivity.
    + apply Qltb_ge in C.
      destruct (IH pre best (mid ++ [s]) bestv Hb Hpre) as
          [before [next [after [q [E R]]]]]; [| assumption |].
      { apply Forall_app. split; [assumption |].
        constructor; [exists v; auto | constructor]. }
      exists before, next, after, q. split; [| exact R].
      rewrite <- E, <- app_assoc. reflexivity.
Qed.

Lemma py_min_spec (l : list track) :
  l <> [] -> Forall (key_defined keyf) l ->
  exists before next after q,
    l = before ++ next :: after /\
    py_min keyf l = Ok next /\
    keyf next = Ok q /\
    Forall (key_above keyf q) before /\
    Forall (key_at_least keyf q) after.
Proof.
  destruct l as [| s l]; [intros C; now elim C |]. intros _ Hl.
  inversion Hl as [| ? ? [v Hv] Hl']; subst.
  destruct (min_scan_spec l [] s [] v Hv) as
      [before [next [after [q [E R]]]]]; try constructor; [assumption |].
  exists before, next, after, q. split; [exact E |].
  simpl. rewrite Hv. exact R.
Qed.

(** A song strictly above the minimum is not the minimum. *)
Lemma key_above_neq (q : Q) (next y : track) :
  keyf next = Ok q -> key_above keyf q y -> y <> next.
Proof.
  intros Hn [qy [Hy L]] ->. rewrite Hn in Hy. injection Hy as <-.
  exact (Qlt_irrefl _ L).
Qed.

End Scan.

Lemma list_remove_middle (before : list track) (next : track) (after : list track) :
  Forall (fun y => y <> next) before ->
  list_remove next (before ++ next :: after) = Ok (before ++ after).
Proof.
  induction 1 as [| y before Hy Hb IH]; simpl.
  - unfold track_eqb. destruct (track_eq_dec next next); [reflexivity | contradiction].
  - unfold track_eqb at 1. destruct (track_eq_dec y next); [contradiction |].
    rewrite IH. reflexivity.
Qed.

Lemma py_last_spec (l : list track) :
  l <> [] -> exists init tail, l = init ++ [tail] /\ py_last l = Ok tail.
Proof.
  induction l as [| x l IH]; [intros C; now elim C |]. intros _.
  destruct l as [| y l'].
  - exists [], x. auto.
  - destruct IH as [init [tail [E H]]]; [discriminate |].
    exists (x :: init), tail. split; [rewrite E; reflexivity | exact H].
Qed.

(** ** The greedy loop *)

Lemma float_tempo_numeric (t : track) : float_tempo t -> numeric t.
Proof. intros [b [H _]]. now exists b. Qed.


Lemma scores_defined (tail : track) (songs : list track) :
  float_tempo tail -> Forall float_tempo songs ->
  Forall (key_defined (fun s => transition_score tail s)) songs.
Proof.
  intros Ht. apply Forall_impl. intros y Hy.
  exact (transition_score_total tail y Ht Hy).
Qed.

Lemma min_scan_Ok_defined (keyf : track -> result Q) (l : list track) :
  forall best bestv x,
    min_scan keyf best bestv l = Ok x -> Forall (key_defined keyf) l.
Proof.
  induction l as [| s l IH]; intros best bestv x H; [constructor |].
  simpl in H. destruct (keyf s) as [v | e] eqn:E; [| discriminate].
  simpl in H. constructor; [now exists v |].
  destruct (Qltb v bestv); eapply IH; eassumption.
Qed.

Lemma py_min_Ok_defined (keyf : track -> result Q) (l : list track) (x : track) :
  py_min keyf l = Ok x -> l <> [] /\ Forall (key_defined keyf) l.
Proof.
  destruct l as [| s l]; [discriminate |]. simpl.
  destruct (keyf s) as [v | e] eqn:E; [| discriminate]. simpl.
  intros H. split; [discriminate |].
  constructor; [now exists v | eapply min_scan_Ok_defined; eassumption].
Qed.

Lemma min_scan_Raise (keyf : track -> result Q) (l : list track) :
  forall best bestv e,
    min_scan keyf best bestv l = Raise e ->
    exists y, In y l /\ keyf y = Raise e.
Proof.
  induction l as [| s l IH]; intros best bestv e H; [discriminate |].
  simpl in H. destruct (keyf s) as [v | e'] eqn:E.
  - simpl in H. destruct (Qltb v bestv);
      destruct (IH _ _ _ H) as [y [Hy Ey]]; exists y; split; auto;
      now right.
  - simpl in H. injection H as <-. exists s. split; [now left | exact E].
Qed.

Lemma py_min_Raise (keyf : track -> result Q) (l : list track) (e : exn) :
  l <> [] -> py_min keyf l = Raise e ->
  exists y, In y l /\ keyf y = Raise e.
Proof.
  destruct l as [| s l]; [intros C; now elim C |]. intros _. simpl.
  destruct (keyf s) as [v | e'] eqn:E; simpl.
  - intros H. destruct (min_scan_Raise _ _ _ _ _ H) as [y [Hy Ey]].
    exists y. split; [now right | exact Ey].
  - intros H. injection H as <-. exists s. split; [now left | exact E].
Qed.

(** One turn of the loop when every unplaced song has a score. *)
Lemma greedy_step_defined (ordered songs : list track) (tail : track) :
  py_last ordered = Ok tail -> songs <> [] ->
  Forall (key_defined (fun s => transition_score tail s)) songs ->
  exists before next after q,
    songs = before ++ next :: after /\
    transition_score tail next = Ok q /\
    Forall (key_above (fun s => transition_score tail s) q) before /\
    Forall (key_at_least (fun s => transition_score tail s) q) after /\
    py_min (fun s => transition_score tail s) songs = Ok next /\
    greedy_step ordered songs = Ok (ordered ++ [next], before ++ after).
Proof.
  intros Hlast Hs Hdef.
  destruct (py_min_spec (fun s => transition_score tail s) songs Hs Hdef)
    as [before [next [after [q [Es [Hmin [Hq [Hb Ha]]]]]]]].
  exists before, next, after, q.
  repeat (split; [assumption |]).
  unfold greedy_step. rewrite Hlast. simpl. rewrite Hmin. simpl.
  rewrite Es at 1. rewrite list_remove_middle; [reflexivity |].
  eapply Forall_impl; [| exact Hb].
  intros y Hy. eapply key_above_neq; eassumption.
Qed.

(** A turn that returns took the first song of smallest score. *)
Lemma greedy_step_inv (ordered songs : list track)
    (st : list track * list track) :
  greedy_step ordered songs = Ok st ->
  exists tail before next after q,
    py_last ordered = Ok tail /\
    songs = before ++ next :: after /\
    transition_score tail next = Ok q /\
    Forall (key_above (fun s => transition_score tail s) q) before /\
    Forall (key_at_least (fun s => transition_score tail s) q) after /\
    py_min (fun s => transition_score tail s) songs = Ok next /\
    st = (ordered ++ [next], before ++ after).
Proof.
  intros H. pose proof H as H'. unfold greedy_step in H'.
  destruct (py_last ordered) as [tail | e] eqn:Hlast; [| discriminate].
  simpl in H'.
  destruct (py_min (fun s => transition_score tail s) songs)
    as [next0 | e] eqn:Hmin; [| discriminate].
  destruct (py_min_Ok_defined _ _ _ Hmin) as [Hs Hdef].
  destruct (greedy_step_defined ordered songs tail Hlast Hs Hdef)
    as [before [next [after [q [Es [Hq [Hb [Ha [Hm Hstep]]]]]]]]].
  exists tail, before, next, after, q.
  split; [reflexivity |].
  repeat (split; [assumption |]).
  congruence.
Qed.

(** A turn that raises passes on the exception of a score. *)
Lemma greedy_step_Raise (ordered songs : list track) (tail : track) (e : exn) :
  py_last ordered = Ok tail -> songs <> [] ->
  greedy_step ordered songs = Raise e ->
  exists y, In y songs /\ transition_score tail y = Raise e.
Proof.
  intros Hlast Hs H.
  destruct (py_min (fun s => transition_score tail s) songs)
    as [next | e'] eqn:Hmin.
  - destruct (py_min_Ok_defined _ _ _ Hmin) as [_ Hdef].
    destruct (greedy_step_defined ordered songs tail Hlast Hs Hdef)
      as [before [nx [after [q [_ [_ [_ [_ [_ Hstep]]]]]]]]].
    congruence.
  - unfold greedy_step in H. rewrite Hlast in H. simpl in H.
    rewrite Hmin in H. simpl in H. injection H as <-.
    now apply py_min_Raise.
Qed.

Lemma greedy_loop_unfold (fuel : nat) (ordered : list track)
    (s : track) (ss : list track) :
  greedy_loop (S fuel) ordered (s :: ss) =
  (st <- greedy_step ordered (s :: ss) ;; greedy_loop fuel (fst st) (snd st)).
Proof. reflexivity. Qed.

Lemma snoc_not_nil (l : list track) (x : track) : l ++ [x] <> [].
Proof. intros C. apply app_eq_nil in C. destruct C; discriminate. Qed.

(** A loop that returns went through the turns of [greedy_run]. *)
Lemma greedy_loop_run (fuel : nat) :
  forall ordered songs out,
    greedy_loop fuel ordered songs = Ok out -> greedy_run ordered songs out.
Proof.
  induction fuel as [| fuel IH]; intros ordered songs out H.
  - destruct songs as [| s ss]; [| discriminate].
    simpl in H. injection H as <-. constructor.
  - destruct songs as [| s ss].
    { simpl in H. injection H as <-. constructor. }
    rewrite greedy_loop_unfold in H.
    destruct (greedy_step ordered (s :: ss)) as [st | e] eqn:Hstep;
      [| discriminate].
    simpl in H.
    destruct (greedy_step_inv _ _ _ Hstep)
      as [tail [before [next [after [q [Hl [Es [Hq [Hb [Ha [_ ->]]]]]]]]]]].
    simpl in H. rewrite Es.
    eapply run_step; try eassumption. now apply IH.
Qed.

Lemma py_last_snoc (l : list track) (x : track) : py_last (l ++ [x]) = Ok x.
Proof.
  induction l as [| a l IH]; [reflexivity |].
  simpl. destruct (l ++ [x]) eqn:E; [| exact IH].
  destruct l; discriminate.
Qed.

Lemma key_above_at_least (keyf : track -> result Q) (q : Q) (l : list track) :
  Forall (key_above keyf q) l -> Forall (key_at_least keyf q) l.
Proof.
  apply Forall_impl. intros y [qy [E L]].
  exists qy. split; [exact E | now apply Qlt_le_weak].
Qed.

(** What a run returns: the placed songs, then a rearrangement of the
    unplaced ones that is a chain of nearest neighbours. *)
Lemma greedy_run_output (ordered songs out : list track) :
  greedy_run ordered songs out ->
  exists tl, out = ordered ++ tl /\ Permutation songs tl /\
             forall tail, py_last ordered = Ok tail -> greedy_chain tail tl.
Proof.
  induction 1 as [ordered | ordered tail before next after q out
                             Hl Hq Hb Ha Hrun IH].
  - exists []. rewrite app_nil_r.
    split; [reflexivity |]. split; constructor.
  - destruct IH as [tl [-> [P Hchain]]].
    exists (next :: tl). split; [now rewrite <- app_assoc |].
    split; [apply Permutation_sym, Permutation_cons_app;
            now apply Permutation_sym |].
    intros tail' Hl'. assert (tail' = tail) as -> by congruence.
    apply chain_cons with q; [exact Hq | | apply Hchain, py_last_snoc].
    apply (Permutation_Forall P).
    apply Forall_app. split; [now apply key_above_at_least | exact Ha].
Qed.

(** With tempos in the range of [float_tempo] the loop returns. *)
Lemma greedy_loop_total (fuel : nat) :
  forall ordered songs,
    ordered <> [] -> Forall float_tempo ordered -> Forall float_tempo songs ->
    (List.length songs <= fuel)%nat ->
    exists out, greedy_loop fuel ordered songs = Ok out.
Proof.
  induction fuel as [| fuel IH]; intros ordered songs Ho Hno Hns Hlen.
  - destruct songs as [| s ss]; [| simpl in Hlen; lia]. now exists ordered.
  - destruct songs as [| s ss]; [now exists ordered |].
    destruct (py_last_spec ordered Ho) as [init [tail [E Hlast]]].
    assert (float_tempo tail) as Ht.
    { rewrite Forall_forall in Hno. apply Hno. rewrite E.
      apply in_or_app. right. now left. }
    destruct (greedy_step_defined ordered (s :: ss) tail Hlast)
      as [before [next [after [q [Es [_ [_ [_ [_ Hstep]]]]]]]]];
      [discriminate | now apply scores_defined |].
    rewrite greedy_loop_unfold, Hstep. simpl.
    rewrite Es in Hns. apply Forall_app in Hns. destruct Hns as [Hb Ha].
    inversion Ha as [| ? ? Hn Ha']; subst.
    apply IH.
    + apply snoc_not_nil.
    + apply Forall_app. split; [assumption | now constructor].
    + apply Forall_app. now split.
    + apply (f_equal (@List.length track)) in Es.
      rewrite length_app in Es. simpl in Es, Hlen.
      rewrite length_app. lia.
Qed.

(** With numeric tempos and enough fuel the loop raises only
    [OverflowError]. *)
Lemma greedy_loop_Raise (fuel : nat) :
  forall ordered songs e,
    ordered <> [] -> Forall numeric ordered -> Forall numeric songs ->
    (List.length songs <= fuel)%nat ->
    greedy_loop fuel ordered songs = Raise e -> e = OverflowError.
Proof.
  induction fuel as [| fuel IH]; intros ordered songs e Ho Hno Hns Hlen H.
  - destruct songs as [| s ss]; [discriminate | simpl in Hlen; lia].
  - destruct songs as [| s ss]; [discriminate |].
    destruct (py_last_spec ordered Ho) as [init [tail [E Hlast]]].
    assert (numeric tail) as Ht.
    { rewrite Forall_forall in Hno. apply Hno. rewrite E.
      apply in_or_app. right. now left. }
    rewrite greedy_loop_unfold in H.
    destruct (greedy_step ordered (s :: ss)) as [st | e'] eqn:Hstep.
    + simpl in H.
      destruct (greedy_step_inv _ _ _ Hstep)
        as [tl [before [next [after [q [_ [Es [_ [_ [_ [_ ->]]]]]]]]]]].
      simpl in H.
      rewrite Es in Hns. apply Forall_app in Hns. destruct Hns as [Hb Ha].
      apply Forall_cons_iff in Ha. destruct Ha as [Hn Ha'].
      apply (IH (ordered ++ [next]) (before ++ after) e); try assumption.
      * apply snoc_not_nil.
      * apply Forall_app. split; [assumption | now constructor].
      * apply Forall_app. now split.
      * apply (f_equal (@List.length track)) in Es.
        rewrite length_app in Es. simpl in Es, Hlen.
        rewrite length_app. lia.
    + simpl in H. injection H as <-.
      destruct (greedy_step_Raise ordered (s :: ss) tail e' Hlast)
        as [y [Hy Ey]]; [discriminate | exact Hstep |].
      rewrite Forall_forall in Hns.
      exact (transition_score_Raise tail y e' Ht (Hns y Hy) Ey).
Qed.

(** ** The sequencer as a whole *)

Lemma order_songs_greedy_unfold (a : track) (l : list track) :
  order_songs_greedy (a :: l) =
  (sorted <- sorted_by_bpm (a :: l) ;;
   match sorted with
   | [] => Raise IndexError
   | first :: rest => greedy_loop (List.length rest) [first] rest
   end).
Proof. reflexivity. Qed.

(** An output is a run of the loop from the head of the sorted list. *)
Lemma order_songs_greedy_inv (songs out : list track) :
  songs <> [] -> order_songs_greedy songs = Ok out ->
  exists first rest,
    sorted_by_bpm songs = Ok (first :: rest) /\
    greedy_run [first] rest out.
Proof.
  intros Hs H. destruct songs as [| a l]; [now elim Hs |].
  rewrite order_songs_greedy_unfold in H.
  destruct (sorted_by_bpm (a :: l)) as [s | e]; [| discriminate].
  simpl in H. destruct s as [| first rest]; [discriminate |].
  exists first, rest. split; [reflexivity |].
  now apply greedy_loop_run with (List.length rest).
Qed.

Lemma order_songs_greedy_Ok_perm (songs out : list track) :
  order_songs_greedy songs = Ok out -> Permutation songs out.
Proof.
  intros H. destruct songs as [| a l].
  - simpl in H. injection H as <-. constructor.
  - destruct (order_songs_greedy_inv (a :: l) out) as [first [rest [Hs Hr]]];
      [discriminate | exact H |].
    destruct (sorted_by_bpm_Ok _ _ Hs) as [P _].
    destruct (greedy_run_output _ _ _ Hr) as [tl [-> [Ptl _]]].
    apply perm_trans with (first :: rest); [exact P |].
    simpl. now apply perm_skip.
Qed.

Lemma order_songs_greedy_total (songs : list track) :
  Forall float_tempo songs -> exists out, order_songs_greedy songs = Ok out.
Proof.
  intros Hn. destruct songs as [| a l]; [now exists [] |].
  assert (Forall numeric (a :: l)) as Hnum
    by (eapply Forall_impl; [| exact Hn]; apply float_tempo_numeric).
  destruct (sorted_by_bpm_spec (a :: l) Hnum) as [s [Hsort [P Hhead]]].
  destruct Hhead as [x [rest [_ [_ [-> _]]]]]; [discriminate |].
  assert (Forall float_tempo (x :: rest)) as Hn'
    by (eapply Permutation_Forall; eassumption).
  inversion Hn' as [| ? ? Hx Hrest]; subst.
  rewrite order_songs_greedy_unfold, Hsort. simpl.
  apply greedy_loop_total; [discriminate | now constructor | assumption | lia].
Qed.

(** The head of an output is the earliest song of minimal tempo. *)
Lemma order_songs_greedy_Ok_seed (songs : list track) (first : track)
    (rest : list track) :
  order_songs_greedy songs = Ok (first :: rest) ->
  exists before after, first_min_bpm first songs before after.
Proof.
  intros H. destruct songs as [| a [| b l]].
  - discriminate.
  - change (order_songs_greedy [a]) with (Ok (A := list track) [a]) in H.
    injection H as <- <-. exists [], [].
    repeat split; constructor.
  - assert (a :: b :: l <> []) as Hne by discriminate.
    destruct (order_songs_greedy_inv _ _ Hne H) as [x [r [Hsort Hrun]]].
    destruct (sorted_by_bpm_Ok _ _ Hsort) as [P Hn].
    assert (Forall numeric (a :: b :: l)) as Hnum.
    { apply (Permutation_Forall (Permutation_sym P)). apply Hn. simpl. lia. }
    destruct (sorted_by_bpm_spec _ Hnum) as [s [Hsort' [_ Hhead]]].
    destruct Hhead as [x' [r' [before [after [-> Hmin]]]]]; [discriminate |].
    destruct (greedy_run_output _ _ _ Hrun) as [tl [E _]].
    simpl in E. injection E as -> ->.
    exists before, after. congruence.
Qed.

(** Whenever the sequencer raises, a song has a [null] tempo and the
    sort raised [TypeError], or all tempos are numeric and a score
    raised [OverflowError]. *)
Lemma order_songs_greedy_Raise (songs : list track) (e : exn) :
  order_songs_greedy songs = Raise e ->
  (e = TypeError /\ Exists (fun t => bpm t = None) songs) \/
  (e = OverflowError /\ Forall numeric songs).
Proof.
  intros H. destruct songs as [| a l]; [discriminate |].
  rewrite order_songs_greedy_unfold in H.
  destruct (sorted_by_bpm (a :: l)) as [s | e'] eqn:E.
  - simpl in H. destruct s as [| first rest].
    { destruct (sorted_by_bpm_Ok _ _ E) as [P _].
      apply Permutation_sym, Permutation_nil in P. discriminate. }
    destruct (sorted_by_bpm_Ok _ _ E) as [P Hn].
    destruct rest as [| r rest']; [discriminate |].
    assert (Forall numeric (first :: r :: rest')) as Hs.
    { apply Hn. apply Permutation_length in P. simpl in *. lia. }
    right. split.
    + inversion Hs; subst.
      apply (greedy_loop_Raise (List.length (r :: rest')) [first]
               (r :: rest')); try assumption;
        [discriminate | now constructor | lia].
    + now apply (Permutation_Forall (Permutation_sym P)).
  - simpl in H. injection H as <-. left.
    split; [now apply sorted_by_bpm_Raise in E |].
    apply Exists_exists.
    assert (forall t : track, {bpm t <> None} + {~ bpm t <> None}) as dec.
    { intros t. destruct (bpm t); [left; discriminate |].
      right. intros C. now apply C. }
    destruct (Forall_Exists_dec (fun t => bpm t <> None) dec (a :: l))
      as [F | X].
    + exfalso.
      assert (Forall numeric (a :: l)) as Hn.
      { eapply Forall_impl; [| exact F]. intros t Ht.
        cbv beta in Ht. unfold numeric.
        destruct (bpm t) as [v |]; [now exists v | congruence]. }
      destruct (sorted_by_bpm_spec _ Hn) as [s [Hs _]]. congruence.
    + apply Exists_exists in X. destruct X as [t [Ht Hb]].
      exists t. split; [exact Ht |].
      destruct (bpm t); [exfalso; apply Hb; discriminate | reflexivity].
Qed.

(** C5 (amended).  In a turn of the loop in which every unplaced song
    has a score from the current tail, the scan selects the first song
    of smallest score: the songs before it in the unplaced list score
    strictly more, those after it at least as much; that song is
    appended and that occurrence is removed, and the loop continues
    from there.  Whenever [order_songs_greedy] returns, its output is
    the result of such turns from the head of the sorted list. *)
Theorem greedy_step_first_minimum :
  (forall (fuel : nat) (ordered songs : list track) (tail : track),
      py_last ordered = Ok tail -> songs <> [] ->
      Forall (fun y => exists qy, transition_score tail y = Ok qy) songs ->
      exists before next after q,
        songs = before ++ next :: after /\
        transition_score tail next = Ok q /\
        Forall (fun y => exists qy,
                    transition_score tail y = Ok qy /\ (q < qy)%Q) before /\
        Forall (fun y => exists qy,
                    transition_score tail y = Ok qy /\ (q <= qy)%Q) after /\
        greedy_step ordered songs = Ok (ordered ++ [next], before ++ after) /\
        greedy_loop (S fuel) ordered songs =
          greedy_loop fuel (ordered ++ [next]) (before ++ after)) /\
  (forall songs out : list track,
      songs <> [] -> order_songs_greedy songs = Ok out ->
      exists first rest,
        sorted_by_bpm songs = Ok (first :: rest) /\
        greedy_run [first] rest out).
Proof.
  split; [| exact order_songs_greedy_inv].
  intros fuel ordered songs tail Hl Hs Hdef.
  destruct (greedy_step_defined ordered songs tail Hl Hs Hdef)
    as [before [next [after [q [Es [Hq [Hb [Ha [_ Hstep]]]]]]]]].
  exists before, next, after, q.
  repeat (split; [assumption |]).
  destruct songs as [| s ss]; [now elim Hs |].
  rewrite greedy_loop_unfold, Hstep. reflexivity.
Qed.

Lemma greedy_step_first_minimum_witness :
  (exists before next after q,
      [song "G" 110; song "F" 110; song "C" 130] = before ++ next :: after /\
      transition_score (song "C" 100) next = Ok q /\
      Forall (fun y => exists qy,
                  transition_score (song "C" 100) y = Ok qy /\ (q < qy)%Q)
             before /\
      Forall (fun y => exists qy,
                  transition_score (song "C" 100) y = Ok qy /\ (q <= qy)%Q)
             after /\
      greedy_step [song "C" 100] [song "G" 110; song "F" 110; song "C" 130]
      = Ok ([song "C" 100] ++ [next], before ++ after) /\
      greedy_loop 3 [song "C" 100] [song "G" 110; song "F" 110; song "C" 130]
      = greedy_loop 2 ([song "C" 100] ++ [next]) (before ++ after)) /\
  (exists first rest,
      sorted_by_bpm [song "G" 110; song "C" 100; song "F" 110; song "C" 130]
      = Ok (first :: rest) /\
      greedy_run [first] rest
        [song "C" 100; song "G" 110; song "C" 130; song "F" 110]).
Proof.
  split.
  - apply (proj1 greedy_step_first_minimum 2%nat [song "C" 100]
             [song "G" 110; song "F" 110; song "C" 130] (song "C" 100)).
    + reflexivity.
    + discriminate.
    + repeat (constructor; [eexists; vm_compute; reflexivity |]).
      constructor.
  - apply (proj2 greedy_step_first_minimum).
    + discriminate.
    + vm_compute. reflexivity.
Defined.

(** C5, as first stated, fails when a score cannot be computed: from
    the tail (C, 0) the songs (G, 10) and (F, 10) tie for the smallest
    score, but the third unplaced song has the tempo 10^309, the scan
    raises [OverflowError] on it and no song is selected. *)
Lemma greedy_step_first_minimum_counterexample :
  sorted_by_bpm [song "C" 0; song "G" 10; song "F" 10; song "C" huge]
  = Ok [song "C" 0; song "G" 10; song "F" 10; song "C" huge] /\
  (exists q1 q2,
      transition_score (song "C" 0) (song "G" 10) = Ok q1 /\
      transition_score (song "C" 0) (song "F" 10) = Ok q2 /\
      (q1 == q2)%Q) /\
  transition_score (song "C" 0) (song "C" huge) = Raise OverflowError /\
  greedy_step [song "C" 0] [song "G" 10; song "F" 10; song "C" huge]
  = Raise OverflowError /\
  order_songs_greedy [song "C" 0; song "G" 10; song "F" 10; song "C" huge]
  = Raise OverflowError.
Proof.
  split; [vm_compute; reflexivity |].
  split; [eexists; eexists; repeat split; vm_compute; reflexivity |].
  repeat split; vm_compute; reflexivity.
Qed.

(** C2 (amended).  Whenever the sequencer returns a list, that list is
    a permutation of its input: same length and the same number of
    occurrences of every song; and it does return when every tempo is
    an integer of magnitude below 2^1022. *)
Theorem order_songs_greedy_permutation (songs : list track) :
  (forall out,
      order_songs_greedy songs = Ok out ->
      Permutation songs out /\
      List.length out = List.length songs /\
      forall t, count_occ track_eq_dec out t = count_occ track_eq_dec songs t) /\
  (Forall float_tempo songs ->
   exists out, order_songs_greedy songs = Ok out).
Proof.
  split; [| apply order_songs_greedy_total].
  intros out H. pose proof (order_songs_greedy_Ok_perm _ _ H) as P.
  split; [exact P |].
  split; [symmetry; now apply Permutation_length |].
  intros t. symmetry. now apply Permutation_count_occ.
Qed.

Lemma order_songs_greedy_permutation_witness :
  exists out,
    order_songs_greedy [song "C" 120; song "G" 122; song "C" 120] = Ok out /\
    Permutation [song "C" 120; song "G" 122; song "C" 120] out /\
    List.length out = List.length [song "C" 120; song "G" 122; song "C" 120] /\
    forall t, count_occ track_eq_dec out t =
              count_occ track_eq_dec [song "C" 120; song "G" 122; song "C" 120] t.
Proof.
  destruct (order_songs_greedy_permutation
              [song "C" 120; song "G" 122; song "C" 120]) as [Hperm Htotal].
  destruct Htotal as [out Hout].
  - repeat (constructor;
            [eexists; split; [reflexivity | vm_compute; reflexivity] |]).
    constructor.
  - exists out. split; [exact Hout | exact (Hperm out Hout)].
Defined.

(** C2, as first stated, fails on two songs with the integer tempos
    10^309 and 0: the sort succeeds, the score overflows, and no list is
    returned. *)
Lemma order_songs_greedy_permutation_counterexample :
  Forall numeric [song "C" huge; song "C" 0] /\
  order_songs_greedy [song "C" huge; song "C" 0] = Raise OverflowError /\
  ~ (exists out,
        order_songs_greedy [song "C" huge; song "C" 0] = Ok out /\
        Permutation [song "C" huge; song "C" 0] out).
Proof.
  split; [repeat (constructor; [eexists; reflexivity |]); constructor |].
  assert (order_songs_greedy [song "C" huge; song "C" 0]
          = Raise OverflowError) as E by (vm_compute; reflexivity).
  split; [exact E |].
  intros [out [H _]]. rewrite E in H. discriminate.
Qed.

(** C3 (amended).  Whenever the sequencer returns a non-empty list, its
    first song has minimal tempo and is the earliest such song of the
    input: the songs before it in the input have a strictly larger
    tempo, those after it a tempo at least as large; and on a non-empty
    input it does return one when every tempo is an integer of
    magnitude below 2^1022. *)
Theorem order_songs_greedy_seed (songs : list track) :
  (forall first rest,
      order_songs_greedy songs = Ok (first :: rest) ->
      exists before after,
        songs = before ++ first :: after /\
        Forall (fun y => (tempo first < tempo y)%Z) before /\
        Forall (fun y => (tempo first <= tempo y)%Z) after) /\
  (songs <> [] -> Forall float_tempo songs ->
   exists first rest, order_songs_greedy songs = Ok (first :: rest)).
Proof.
  split; [exact (order_songs_greedy_Ok_seed songs) |].
  intros Hs Hn. destruct (order_songs_greedy_total songs Hn) as [out H].
  destruct out as [| first rest]; [| eauto].
  apply order_songs_greedy_Ok_perm in H.
  apply Permutation_sym, Permutation_nil in H. contradiction.
Qed.

Lemma order_songs_greedy_seed_witness :
  exists first rest before after,
    order_songs_greedy [song "C" 120; song "F#" 90; song "G" 90] =
      Ok (first :: rest) /\
    [song "C" 120; song "F#" 90; song "G" 90] = before ++ first :: after /\
    Forall (fun y => (tempo first < tempo y)%Z) before /\
    Forall (fun y => (tempo first <= tempo y)%Z) after.
Proof.
  destruct (order_songs_greedy_seed [song "C" 120; song "F#" 90; song "G" 90])
    as [Hseed Htotal].
  destruct Htotal as [first [rest Hout]].
  - discriminate.
  - repeat (constructor;
            [eexists; split; [reflexivity | vm_compute; reflexivity] |]).
    constructor.
  - destruct (Hseed first rest Hout) as [before [after Hmin]].
    exists first, rest, before, after. split; [exact Hout | exact Hmin].
Defined.

(** C3, as first stated, fails on the non-empty input of two songs with
    the integer tempos 10^309 and 0: the score overflows and the output
    has no first element. *)
Lemma order_songs_greedy_seed_counterexample :
  [song "G" huge; song "C" 0] <> [] /\
  Forall numeric [song "G" huge; song "C" 0] /\
  ~ (exists first rest,
        order_songs_greedy [song "G" huge; song "C" 0] = Ok (first :: rest)).
Proof.
  split; [discriminate |].
  split; [repeat (constructor; [eexists; reflexivity |]); constructor |].
  assert (order_songs_greedy [song "G" huge; song "C" 0]
          = Raise OverflowError) as E by (vm_compute; reflexivity).
  intros [first [rest H]]. rewrite E in H. discriminate.
Qed.

(** ** A [null] tempo and the scorer *)

Lemma greedy_loop_by_score (fuel : nat) :
  forall ordered songs,
    greedy_loop_by transition_score fuel ordered songs
    = greedy_loop fuel ordered songs.
Proof.
  induction fuel as [| fuel IH]; intros ordered songs;
    destruct songs as [| s ss]; try reflexivity.
  rewrite greedy_loop_unfold.
  change (greedy_loop_by transition_score (S fuel) ordered (s :: ss))
    with (st <- greedy_step ordered (s :: ss) ;;
          greedy_loop_by transition_score fuel (fst st) (snd st)).
  destruct (greedy_step ordered (s :: ss)) as [st | e]; [| reflexivity].
  simpl. apply IH.
Qed.

Lemma order_songs_greedy_by_score (songs : list track) :
  order_songs_greedy_by transition_score songs = order_songs_greedy songs.
Proof.
  destruct songs as [| a l]; [reflexivity |].
  rewrite order_songs_greedy_unfold.
  change (order_songs_greedy_by transition_score (a :: l))
    with (sorted <- sorted_by_bpm (a :: l) ;;
          match sorted with
          | [] => Raise IndexError
          | first :: rest =>
              greedy_loop_by transition_score (List.length rest) [first] rest
          end).
  destruct (sorted_by_bpm (a :: l)) as [[| first rest] | e]; try reflexivity.
  simpl. apply greedy_loop_by_score.
Qed.

Lemma order_songs_greedy_by_null (score : track -> track -> result Q)
    (songs : list track) :
  (2 <= List.length songs)%nat ->
  Exists (fun t => bpm t = None) songs ->
  order_songs_greedy_by score songs = Raise TypeError.
Proof.
  intros Hlen Hex.
  destruct songs as [| a l]; [simpl in Hlen; lia |].
  unfold order_songs_greedy_by.
  destruct (sorted_by_bpm (a :: l)) as [s | e] eqn:E.
  - exfalso. destruct (sorted_by_bpm_Ok _ _ E) as [P Hn].
    specialize (Hn Hlen).
    apply (Permutation_Forall (Permutation_sym P)) in Hn.
    apply Exists_exists in Hex. destruct Hex as [t [Hin Ht]].
    rewrite Forall_forall in Hn. destruct (Hn t Hin) as [b Hb]. congruence.
  - apply sorted_by_bpm_Raise in E. subst e. reflexivity.
Qed.

(** C7 (amended).  When the tempo of either song is [null] the
    subtraction in [transition_score] raises [TypeError] and no number
    is returned.  The sequencer, its only caller, never reaches this:
    with a [null] tempo among its songs it returns a single song
    unscored and on two or more songs its sort raises [TypeError], so
    its result is the same whatever the scorer is. *)
Theorem transition_score_absent_bpm :
  (forall current next : track,
      bpm current = None \/ bpm next = None ->
      transition_score current next = Raise TypeError /\
      forall q, transition_score current next <> Ok q) /\
  (forall songs : list track,
      order_songs_greedy_by transition_score songs = order_songs_greedy songs) /\
  (forall (score : track -> track -> result Q) (songs : list track),
      Exists (fun t => bpm t = None) songs ->
      (exists x, songs = [x] /\ order_songs_greedy_by score songs = Ok [x]) \/
      ((2 <= List.length songs)%nat /\
       order_songs_greedy_by score songs = Raise TypeError)).
Proof.
  split; [| split; [exact order_songs_greedy_by_score |]].
  - intros current next H.
    assert (transition_score current next = Raise TypeError) as E.
    { unfold transition_score.
      destruct H as [H | H]; rewrite H; [reflexivity |].
      destruct (bpm current); reflexivity. }
    split; [exact E |]. intros q. rewrite E. discriminate.
  - intros score songs Hex.
    destruct songs as [| a [| b l]].
    + inversion Hex.
    + left. exists a. split; reflexivity.
    + right. split; [simpl; lia |].
      apply order_songs_greedy_by_null; [simpl; lia | exact Hex].
Qed.

Lemma transition_score_absent_bpm_witness :
  transition_score (mkTrack "broken.mp3" None None None) (song "G" 128)
  = Raise TypeError /\
  ((exists x,
       [mkTrack "broken.mp3" None None None; song "G" 128] = [x] /\
       order_songs_greedy_by transition_score
         [mkTrack "broken.mp3" None None None; song "G" 128] = Ok [x]) \/
   ((2 <= List.length [mkTrack "broken.mp3" None None None; song "G" 128])%nat /\
    order_songs_greedy_by transition_score
      [mkTrack "broken.mp3" None None None; song "G" 128] = Raise TypeError)).
Proof.
  split.
  - apply (proj1 transition_score_absent_bpm
             (mkTrack "broken.mp3" None None None) (song "G" 128)).
    left. reflexivity.
  - apply (proj2 (proj2 transition_score_absent_bpm)).
    apply Exists_cons_hd. reflexivity.
Defined.

(** C7, as first stated, fails in that the path is not reached: with a
    scorer that would raise on every call, the sequencer still raises
    the [TypeError] of the sort on two songs of which one has a [null]
    tempo, and still returns a single such song, exactly as with
    [transition_score]. *)
Lemma transition_score_absent_bpm_counterexample :
  sorted_by_bpm [mkTrack "broken.mp3" None None None; song "G" 128]
  = Raise TypeError /\
  order_songs_greedy [mkTrack "broken.mp3" None None None; song "G" 128]
  = Raise TypeError /\
  order_songs_greedy_by (fun _ _ => Raise OutOfFuel)
    [mkTrack "broken.mp3" None None None; song "G" 128]
  = Raise TypeError /\
  order_songs_greedy [mkTrack "broken.mp3" None None None]
  = Ok [mkTrack "broken.mp3" None None None] /\
  order_songs_greedy_by (fun _ _ => Raise OutOfFuel)
    [mkTrack "broken.mp3" None None None]
  = Ok [mkTrack "broken.mp3" None None None] /\
  order_songs_greedy_by (fun _ _ => Raise OutOfFuel)
    [song "C" 120; song "G" 128]
  = Raise OutOfFuel.
Proof.
  repeat split; vm_compute; reflexivity.
Qed.
(** ** Formatting and parsing wheel positions *)

Lemma parse_digits_acc (d : Decimal.uint) :
  forall acc : positive,
    parse_digits (Zpos acc) (NilEmpty.string_of_uint d)
    = Ok (Zpos (Pos.of_uint_acc d acc)).
Proof.
  induction d; intros acc;
    cbn [NilEmpty.string_of_uint parse_digits Pos.of_uint_acc];
    try reflexivity; eval_digit; rewrite <- IHd; f_equal; lia.
Qed.

Lemma parse_digits_uint (d : Decimal.uint) :
  parse_digits 0 (NilEmpty.string_of_uint d) = Ok (Z.of_N (Pos.of_uint d)).
Proof.
  induction d;
    cbn [NilEmpty.string_of_uint parse_digits Pos.of_uint];
    try reflexivity; eval_digit; try exact IHd;
    apply (parse_digits_acc d).
Qed.

Lemma py_int_digits (d : Decimal.uint) :
  d <> Decimal.Nil ->
  py_int (NilEmpty.string_of_uint d) = parse_literal (NilEmpty.string_of_uint d).
Proof.
  destruct d; intros H; try reflexivity. now elim H.
Qed.

Lemma parse_literal_short (s : string) :
  (Z.of_nat (String.length s) <= MAX_STR_DIGITS)%Z ->
  parse_literal s = parse_digits 0 s.
Proof.
  intros H. unfold parse_literal.
  destruct (Z.ltb_spec MAX_STR_DIGITS (Z.of_nat (String.length s)));
    [lia | reflexivity].
Qed.

Lemma parse_literal_long (s : string) :
  (MAX_STR_DIGITS < Z.of_nat (String.length s))%Z ->
  parse_literal s = Raise ValueError.
Proof.
  intros H. unfold parse_literal.
  destruct (Z.ltb_spec MAX_STR_DIGITS (Z.of_nat (String.length s)));
    [reflexivity | lia].
Qed.

Lemma string_of_uint_nonempty (d : Decimal.uint) :
  d <> Decimal.Nil -> NilEmpty.string_of_uint d <> EmptyString.
Proof.
  destruct d; intros H; try discriminate. now elim H.
Qed.

Lemma py_str_pos (p : positive) :
  py_str (Zpos p) = NilEmpty.string_of_uint (Pos.to_uint p).
Proof.
  unfold py_str. simpl. unfold NilZero.string_of_uint.
  pose proof (Unsigned.to_uint_nonnil p) as H.
  destruct (Pos.to_uint p); try reflexivity. now elim H.
Qed.

Lemma py_str_neg (p : positive) :
  py_str (Zneg p) = String "-" (py_str (Zpos p)).
Proof. reflexivity. Qed.

Lemma digits_pos (p : positive) :
  digits (Zpos p) = Z.of_nat (String.length (py_str (Zpos p))).
Proof. reflexivity. Qed.

Lemma digits_neg (p : positive) : digits (Zneg p) = digits (Zpos p).
Proof. reflexivity. Qed.

(** [int(str(n))] is [n] for an integer of at most [MAX_STR_DIGITS]
    digits, and raises for a longer one. *)
Lemma py_int_py_str (n : Z) :
  (digits n <= MAX_STR_DIGITS)%Z -> py_int (py_str n) = Ok n.
Proof.
  destruct n as [| p | p]; intros H.
  - reflexivity.
  - rewrite digits_pos in H. rewrite py_str_pos in *.
    rewrite py_int_digits by apply Unsigned.to_uint_nonnil.
    rewrite parse_literal_short by exact H.
    rewrite parse_digits_uint, Unsigned.of_to. reflexivity.
  - rewrite digits_neg, digits_pos in H. rewrite py_str_neg.
    rewrite py_str_pos in *.
    pose proof (string_of_uint_nonempty _ (Unsigned.to_uint_nonnil p)) as N.
    unfold py_int.
    change (Ascii.eqb "-" "-") with true. cbv iota.
    destruct (NilEmpty.string_of_uint (Pos.to_uint p)) eqn:E; [now elim N |].
    rewrite <- E in *. rewrite parse_literal_short by exact H.
    rewrite parse_digits_uint, Unsigned.of_to. reflexivity.
Qed.

Lemma py_int_py_str_long (n : Z) :
  (MAX_STR_DIGITS < digits n)%Z -> py_int (py_str n) = Raise ValueError.
Proof.
  destruct n as [| p | p]; intros H.
  - vm_compute in H. discriminate.
  - rewrite digits_pos in H. rewrite py_str_pos in *.
    rewrite py_int_digits by apply Unsigned.to_uint_nonnil.
    now apply parse_literal_long.
  - rewrite digits_neg, digits_pos in H. rewrite py_str_neg.
    rewrite py_str_pos in *.
    pose proof (string_of_uint_nonempty _ (Unsigned.to_uint_nonnil p)) as N.
    unfold py_int.
    change (Ascii.eqb "-" "-") with true. cbv iota.
    destruct (NilEmpty.string_of_uint (Pos.to_uint p)) eqn:E; [now elim N |].
    rewrite <- E in *. rewrite parse_literal_long by exact H. reflexivity.
Qed.

Lemma py_str_inj (p q : Z) : py_str p = py_str q -> p = q.
Proof.
  unfold py_str. intros H.
  apply (f_equal NilZero.int_of_string) in H.
  assert (forall n, Z.to_int n <> Decimal.Pos Decimal.Nil /\
                    Z.to_int n <> Decimal.Neg Decimal.Nil) as N.
  { intros [| r | r]; simpl; split; try discriminate;
      intros C; injection C as C;
      exact (Unsigned.to_uint_nonnil r C). }
  rewrite !NilZero.isi in H by apply N.
  injection H as H. now apply DecimalZ.to_int_inj.
Qed.

Lemma py_fmt_key_short (num : Z) (mode : ascii) :
  (digits num <= MAX_STR_DIGITS)%Z ->
  py_fmt_key num mode = Ok (fmt_key num mode).
Proof.
  intros H. unfold py_fmt_key, py_format.
  destruct (Z.ltb_spec MAX_STR_DIGITS (digits num)); [lia | reflexivity].
Qed.

(** A position on the wheel has one or two digits. *)
Lemma digits_wheel (k : Z) :
  (1 <= k <= 12)%Z -> (digits k <= MAX_STR_DIGITS)%Z.
Proof.
  intros H.
  assert (k = 1 \/ k = 2 \/ k = 3 \/ k = 4 \/ k = 5 \/ k = 6 \/ k = 7 \/
          k = 8 \/ k = 9 \/ k = 10 \/ k = 11 \/ k = 12)%Z as C by lia.
  split_cases C; subst k; vm_compute; discriminate.
Qed.

Lemma drop_last_app (s : string) (c : ascii) :
  drop_last (s ++ String c EmptyString) = s.
Proof.
  induction s as [| a s IH]; [reflexivity |].
  simpl. destruct (s ++ String c EmptyString)%string eqn:E.
  - destruct s; discriminate.
  - now rewrite IH.
Qed.

Lemma last_char_app (s : string) (c : ascii) :
  last_char (s ++ String c EmptyString) = Ok c.
Proof.
  induction s as [| a s IH]; [reflexivity |].
  simpl. destruct (s ++ String c EmptyString)%string eqn:E.
  - destruct s; discriminate.
  - exact IH.
Qed.

Lemma camelot_neighbors_fmt (num : Z) (mode : ascii) :
  (digits num <= MAX_STR_DIGITS)%Z ->
  camelot_neighbors (fmt_key num mode) =
  Ok [ fmt_key num mode;
       fmt_key (num mod 12 + 1)%Z mode;
       fmt_key ((num - 2) mod 12 + 1)%Z mode;
       fmt_key num (flip_mode mode) ].
Proof.
  intros H. unfold camelot_neighbors.
  unfold fmt_key at 1 2.
  rewrite drop_last_app, py_int_py_str, last_char_app by exact H.
  cbn [bind].
  rewrite !(py_fmt_key_short num) by exact H. cbn [bind].
  rewrite !py_fmt_key_short; [reflexivity | |].
  - apply digits_wheel. pose proof (Z.mod_pos_bound (num - 2) 12). lia.
  - apply digits_wheel. pose proof (Z.mod_pos_bound num 12). lia.
Qed.

Lemma camelot_neighbors_fmt_long (num : Z) (mode : ascii) :
  (MAX_STR_DIGITS < digits num)%Z ->
  camelot_neighbors (fmt_key num mode) = Raise ValueError.
Proof.
  intros H. unfold camelot_neighbors, fmt_key.
  rewrite drop_last_app, py_int_py_str_long by exact H. reflexivity.
Qed.

Lemma fmt_key_inj (p q : Z) (m m' : ascii) :
  fmt_key p m = fmt_key q m' -> p = q /\ m = m'.
Proof.
  intros H.
  assert (drop_last (fmt_key p m) = drop_last (fmt_key q m'))
    as Hp by now rewrite H.
  assert (last_char (fmt_key p m) = last_char (fmt_key q m'))
    as Hm by now rewrite H.
  unfold fmt_key in Hp, Hm.
  rewrite !drop_last_app in Hp.
  rewrite !last_char_app in Hm.
  split; [now apply py_str_inj | congruence].
Qed.

(** ** The wheel beyond the table *)

(** X1.  On the code formatted from an integer position of at most
    4300 digits and any mode character [camelot_neighbors] does not
    raise: it returns the code itself, the two codes at
    [(num mod 12) + 1] and [((num - 2) mod 12) + 1], which lie in 1..12
    whatever [num] is, and the code with the mode switched; and each of
    the four is again a code on which [camelot_neighbors] does not
    raise.  On a position of more than 4300 digits the conversion of
    the digits raises [ValueError]. *)
Theorem camelot_neighbors_any_position (num : Z) (mode : ascii) :
  let cw := (num mod 12 + 1)%Z in
  let ccw := ((num - 2) mod 12 + 1)%Z in
  let ns := [ fmt_key num mode; fmt_key cw mode; fmt_key ccw mode;
              fmt_key num (flip_mode mode) ] in
  ((digits num <= MAX_STR_DIGITS)%Z ->
   camelot_neighbors (fmt_key num mode) = Ok ns /\
   (1 <= cw <= 12)%Z /\ (1 <= ccw <= 12)%Z /\
   Forall (fun c => exists ns', camelot_neighbors c = Ok ns') ns) /\
  ((MAX_STR_DIGITS < digits num)%Z ->
   camelot_neighbors (fmt_key num mode) = Raise ValueError).
Proof.
  intros cw ccw ns.
  split; [| apply camelot_neighbors_fmt_long].
  intros H.
  assert (1 <= cw <= 12)%Z as Hcw
    by (unfold cw; pose proof (Z.mod_pos_bound num 12); lia).
  assert (1 <= ccw <= 12)%Z as Hccw
    by (unfold ccw; pose proof (Z.mod_pos_bound (num - 2) 12); lia).
  split; [now apply camelot_neighbors_fmt |].
  split; [exact Hcw |]. split; [exact Hccw |].
  unfold ns.
  constructor; [eexists; now apply camelot_neighbors_fmt |].
  constructor; [eexists; apply camelot_neighbors_fmt;
                now apply digits_wheel |].
  constructor; [eexists; apply camelot_neighbors_fmt;
                now apply digits_wheel |].
  constructor; [eexists; now apply camelot_neighbors_fmt |].
  constructor.
Qed.

Lemma camelot_neighbors_any_position_witness :
  camelot_neighbors (fmt_key (-7) "B") = Ok ["-7B"; "6B"; "4B"; "-7A"] /\
  camelot_neighbors (fmt_key 13 "x") = Ok ["13x"; "2x"; "12x"; "13B"] /\
  camelot_neighbors (fmt_key (10 ^ 4300) "B") = Raise ValueError.
Proof.
  split; [| split].
  - apply (proj1 (camelot_neighbors_any_position (-7) "B")).
    vm_compute. discriminate.
  - apply (proj1 (camelot_neighbors_any_position 13 "x")).
    vm_compute. discriminate.
  - apply (proj2 (camelot_neighbors_any_position (10 ^ 4300) "B")).
    vm_compute. reflexivity.
Defined.

Lemma wheel_codes_agree :
  forallb (fun a => forallb (neighbors_agree a) WHEEL_CODES) WHEEL_CODES = true.
Proof. vm_compute. reflexivity. Qed.

Lemma wheel_code_In (p : Z) (m : ascii) :
  (1 <= p <= 12)%Z -> m = "A"%char \/ m = "B"%char ->
  In (fmt_key p m) WHEEL_CODES.
Proof.
  intros Hp Hm.
  assert (p = 1 \/ p = 2 \/ p = 3 \/ p = 4 \/ p = 5 \/ p = 6 \/ p = 7 \/
          p = 8 \/ p = 9 \/ p = 10 \/ p = 11 \/ p = 12)%Z as C by lia.
  apply str_in_In.
  destruct Hm; subst m; split_cases C; subst p; vm_compute; reflexivity.
Qed.

(** X2. On the whole wheel, positions 1..12 in modes A and B, the
    neighbour relation is symmetric: one code is among the neighbours of
    another exactly when the converse holds. *)
Theorem wheel_neighbors_symmetric (p q : Z) (m m' : ascii) :
  (1 <= p <= 12)%Z -> (1 <= q <= 12)%Z ->
  m = "A"%char \/ m = "B"%char -> m' = "A"%char \/ m' = "B"%char ->
  exists np nq,
    camelot_neighbors (fmt_key p m) = Ok np /\
    camelot_neighbors (fmt_key q m') = Ok nq /\
    (In (fmt_key q m') np <-> In (fmt_key p m) nq).
Proof.
  intros Hp Hq Hm Hm'.
  pose proof (wheel_code_In p m Hp Hm) as Ip.
  pose proof (wheel_code_In q m' Hq Hm') as Iq.
  pose proof wheel_codes_agree as H.
  rewrite forallb_forall in H. specialize (H _ Ip).
  rewrite forallb_forall in H. specialize (H _ Iq).
  unfold neighbors_agree in H.
  rewrite (camelot_neighbors_fmt p m), (camelot_neighbors_fmt q m') in H
    by now apply digits_wheel.
  apply Bool.eqb_prop in H.
  eexists. eexists.
  split; [apply camelot_neighbors_fmt; now apply digits_wheel |].
  split; [apply camelot_neighbors_fmt; now apply digits_wheel |].
  rewrite <- !str_in_In. rewrite H. reflexivity.
Qed.

Lemma wheel_neighbors_symmetric_witness :
  exists np nq,
    camelot_neighbors (fmt_key 12 "A") = Ok np /\
    camelot_neighbors (fmt_key 1 "A") = Ok nq /\
    (In (fmt_key 1 "A") np <-> In (fmt_key 12 "A") nq).
Proof.
  apply (wheel_neighbors_symmetric 12 1 "A" "A");
    solve [lia | left; reflexivity].
Defined.

Lemma table_codes_by_position :
  CAMELOT_CODES = map (fun p => fmt_key p "B") TABLE_POSITIONS.
Proof. reflexivity. Qed.

Lemma code_position (p : Z) :
  In (fmt_key p "B") CAMELOT_CODES -> In p TABLE_POSITIONS.
Proof.
  rewrite table_codes_by_position, in_map_iff.
  intros [q [E Hq]]. apply fmt_key_inj in E. destruct E as [-> _]. exact Hq.
Qed.

Lemma table_penalties_agree :
  forallb (fun p1 => forallb (penalty_agrees p1) TABLE_POSITIONS)
          TABLE_POSITIONS = true.
Proof. vm_compute. reflexivity. Qed.

Lemma penalty_by_position (p1 p2 : Z) :
  In p1 TABLE_POSITIONS -> In p2 TABLE_POSITIONS ->
  key_penalty_of (Some (fmt_key p1 "B")) (Some (fmt_key p2 "B"))
  = Ok (if adjacent p1 p2 then 0 else 50)%Z.
Proof.
  intros H1 H2. pose proof table_penalties_agree as H.
  rewrite forallb_forall in H. specialize (H _ H1).
  rewrite forallb_forall in H. specialize (H _ H2).
  unfold penalty_agrees in H.
  destruct (key_penalty_of _ _) as [v | e]; [| discriminate].
  apply Z.eqb_eq in H. now subst.
Qed.

(** X3.  For two songs with integer tempos at most 2^52 apart whose
    keys the table maps to positions [p1] and [p2], the key penalty is 0
    exactly when the two positions are equal or next to each other on
    the circle of twelve, and 50 otherwise: the mode-switched neighbour
    never matches, since every code of the table has mode B. *)
Theorem transition_score_by_position (a b : track) (x y p1 p2 : Z) :
  bpm a = Some x -> bpm b = Some y ->
  (Z.abs (x - y) <= 2 ^ 52)%Z ->
  CAMELOT_MAP_get (key a) = Some (fmt_key p1 "B") ->
  CAMELOT_MAP_get (key b) = Some (fmt_key p2 "B") ->
  exists q,
    transition_score a b = Ok q /\
    (q == (if adjacent p1 p2 then 0 else 50)
          + (1 # 2) * inject_Z (Z.abs (x - y)))%Q.
Proof.
  intros Ha Hb Hd Ka Kb.
  assert (key_penalty_of (CAMELOT_MAP_get (key a)) (CAMELOT_MAP_get (key b))
          = Ok (if adjacent p1 p2 then 0 else 50)%Z) as Hp.
  { rewrite Ka, Kb. apply penalty_by_position;
      apply code_position; eapply recognized_code; eassumption. }
  rewrite (transition_score_exact _ _ _ _ _ Ha Hb Hd Hp).
  eexists. split; [reflexivity |].
  rewrite halves_value. destruct (adjacent p1 p2); reflexivity.
Qed.

Lemma transition_score_by_position_witness :
  exists q,
    transition_score (song "C" 120) (song "G" 126) = Ok q /\
    (q == (if adjacent 8 9 then 0 else 50)
          + (1 # 2) * inject_Z (Z.abs (120 - 126)))%Q.
Proof.
  apply (transition_score_by_position (song "C" 120) (song "G" 126)
           120 126 8 9); try reflexivity.
  vm_compute. discriminate.
Defined.

(** ** More on transition scores *)

Lemma key_penalty_zero_iff (a b : track) :
  key_penalty_of (CAMELOT_MAP_get (key a)) (CAMELOT_MAP_get (key b)) = Ok 0%Z
  <-> harmonic a b.
Proof.
  unfold harmonic. split.
  - destruct (CAMELOT_MAP_get (key a)) as [v1 |] eqn:E1.
    + destruct (CAMELOT_MAP_get (key b)) as [v2 |] eqn:E2.
      * destruct (key_penalty_recognized _ _ _ _ E1 E2) as [ns [Hns ->]].
        destruct (str_in v2 ns) eqn:E; [| discriminate].
        intros _. exists v1, v2, ns. apply str_in_In in E. auto.
      * rewrite key_penalty_unknown by auto. discriminate.
    + rewrite key_penalty_unknown by auto. discriminate.
  - intros [c1 [c2 [ns [E1 [E2 [Hns Hin]]]]]].
    destruct (key_penalty_recognized _ _ _ _ E1 E2) as [ns' [Hns' Hp]].
    rewrite E1, E2, Hp.
    assert (ns' = ns) as -> by congruence.
    apply str_in_In in Hin. now rewrite Hin.
Qed.

Lemma table_codes_self_neighbor :
  forallb self_neighbor CAMELOT_CODES = true.
Proof. vm_compute. reflexivity. Qed.

Lemma harmonic_same_key (a b : track) (c : string) :
  key a = key b -> CAMELOT_MAP_get (key a) = Some c -> harmonic a b.
Proof.
  intros Hk E.
  pose proof table_codes_self_neighbor as H.
  rewrite forallb_forall in H.
  specialize (H c (recognized_code _ _ E)). unfold self_neighbor in H.
  destruct (camelot_neighbors c) as [ns | e] eqn:Hns; [| discriminate].
  exists c, c, ns. rewrite <- Hk. apply str_in_In in H. auto.
Qed.

(** X4.  With integer tempos at most 2^52 apart the score is defined,
    is never negative, and lies between half the tempo difference and
    100 plus half the tempo difference. *)
Theorem transition_score_bounds (a b : track) (x y : Z) :
  bpm a = Some x -> bpm b = Some y ->
  (Z.abs (x - y) <= 2 ^ 52)%Z ->
  exists q,
    transition_score a b = Ok q /\
    (0 <= q)%Q /\
    ((1 # 2) * inject_Z (Z.abs (x - y)) <= q)%Q /\
    (q <= 100 + (1 # 2) * inject_Z (Z.abs (x - y)))%Q.
Proof.
  intros Ha Hb Hd.
  destruct (key_penalty_total (key a) (key b)) as [p Hp].
  rewrite (transition_score_exact _ _ _ _ _ Ha Hb Hd Hp).
  eexists. split; [reflexivity |].
  apply key_penalty_values in Hp. clear Hd.
  generalize (Z.abs (x - y)) (Z.abs_nonneg (x - y)). intros d Hd.
  unfold Qle, Qplus, Qmult, inject_Z. cbn [Qnum Qden].
  destruct Hp as [-> | [-> | ->]]; lia.
Qed.

Lemma transition_score_bounds_witness :
  exists q,
    transition_score (song "C" 120) (song "H" 90) = Ok q /\
    (0 <= q)%Q /\
    ((1 # 2) * inject_Z (Z.abs (120 - 90)) <= q)%Q /\
    (q <= 100 + (1 # 2) * inject_Z (Z.abs (120 - 90)))%Q.
Proof.
  apply (transition_score_bounds (song "C" 120) (song "H" 90) 120 90);
    try reflexivity.
  vm_compute. discriminate.
Defined.

(** X5.  Two songs with integer tempos at most 2^52 apart and the same
    [key] field score half their tempo difference when that key is in
    the table, and 100 more when it is not ([null] included); so a song
    scored against an equal one gives 0 or 100. *)
Theorem transition_score_same_key (a b : track) (x y : Z) :
  bpm a = Some x -> bpm b = Some y ->
  (Z.abs (x - y) <= 2 ^ 52)%Z ->
  key a = key b ->
  exists q,
    transition_score a b = Ok q /\
    (q == match CAMELOT_MAP_get (key a) with Some _ => 0 | None => 100 end
          + (1 # 2) * inject_Z (Z.abs (x - y)))%Q.
Proof.
  intros Ha Hb Hd Hk.
  destruct (CAMELOT_MAP_get (key a)) as [c |] eqn:E.
  - pose proof (harmonic_same_key a b c Hk E) as H.
    apply key_penalty_zero_iff in H.
    rewrite (transition_score_exact _ _ _ _ _ Ha Hb Hd H).
    eexists. split; [reflexivity | apply halves_value].
  - assert (key_penalty_of (CAMELOT_MAP_get (key a))
                           (CAMELOT_MAP_get (key b)) = Ok 100%Z) as H
      by (apply key_penalty_unknown; auto).
    rewrite (transition_score_exact _ _ _ _ _ Ha Hb Hd H).
    eexists. split; [reflexivity | apply halves_value].
Qed.

Lemma transition_score_same_key_witness :
  exists q,
    transition_score (song "D" 100) (song "D" 100) = Ok q /\
    (q == match CAMELOT_MAP_get (key (song "D" 100)) with
          | Some _ => 0
          | None => 100
          end + (1 # 2) * inject_Z (Z.abs (100 - 100)))%Q.
Proof.
  apply (transition_score_same_key (song "D" 100) (song "D" 100) 100 100);
    try reflexivity.
  vm_compute. discriminate.
Defined.

(** X6.  For integer tempos, a score is zero exactly for the ideal
    transition at equal tempo: both keys recognized, the second a
    neighbour of the first, and no tempo difference. *)
Theorem transition_score_zero_iff (a b : track) (x y : Z) (q : Q) :
  bpm a = Some x -> bpm b = Some y ->
  transition_score a b = Ok q ->
  ((q == 0)%Q <-> x = y /\ harmonic a b).
Proof.
  intros Ha Hb. rewrite (transition_score_numeric _ _ _ _ Ha Hb).
  rewrite <- key_penalty_zero_iff.
  destruct (key_penalty_total (key a) (key b)) as [p Hp].
  rewrite Hp. rewrite bind_Ok; cbv beta.
  destruct (py_float (Z.abs (x - y))) as [f | e] eqn:Hf; [| discriminate].
  rewrite bind_Ok; cbv beta. intros H.
  assert (q = float_halves (2 * p + f)) as -> by congruence. clear H.
  apply py_float_Ok in Hf.
  pose proof (key_penalty_values _ _ _ Hp) as V.
  pose proof (Z.abs_nonneg (x - y)) as Hd.
  pose proof (round53_nonneg _ Hd) as Hf0. rewrite <- Hf in Hf0.
  unfold float_halves.
  remember (round53 (2 * p + f)) as r eqn:Er.
  unfold Qeq. cbn [Qnum Qden].
  split.
  - intros H.
    assert (round53 (2 * p + f) = 0)%Z as R by lia.
    apply round53_zero in R; [| lia].
    assert (p = 0)%Z as -> by lia.
    assert (f = 0)%Z as F by lia. rewrite F in Hf. symmetry in Hf.
    apply round53_zero in Hf; [| exact Hd].
    split; [lia | reflexivity].
  - intros [-> H]. injection H as ->.
    rewrite Z.sub_diag in Hf. rewrite Hf in Er. rewrite Er. reflexivity.
Qed.

Lemma transition_score_zero_iff_witness :
  ((float_halves (2 * 0 + 0) == 0)%Q
   <-> 100%Z = 100%Z /\ harmonic (song "D" 100) (song "A" 100)).
Proof.
  apply (transition_score_zero_iff (song "D" 100) (song "A" 100) 100 100);
    reflexivity.
Defined.

(** X7. The key penalty dominates: from a song [a], a harmonic
    successor [b] less than 100 BPM away scores strictly below every
    successor [c] that is not harmonic, however close the tempo of [c]
    is. *)
Theorem harmonic_beats_non_harmonic (a b c : track) (xa xb xc : Z) (qb qc : Q) :
  bpm a = Some xa -> bpm b = Some xb -> bpm c = Some xc ->
  transition_score a b = Ok qb -> transition_score a c = Ok qc ->
  harmonic a b -> ~ harmonic a c ->
  (Z.abs (xa - xb) < 100)%Z ->
  (qb < qc)%Q.
Proof.
  intros Ha Hb Hc Sb Sc Hh Hn Hd.
  apply key_penalty_zero_iff in Hh.
  assert (100 < 2 ^ 52)%Z as H52 by reflexivity.
  rewrite (transition_score_exact a b xa xb 0%Z Ha Hb) in Sb;
    [| lia | exact Hh].
  assert (qb = (2 * 0 + Z.abs (xa - xb)) # 2) as -> by congruence. clear Sb.
  rewrite (transition_score_numeric _ _ _ _ Ha Hc) in Sc.
  rewrite <- key_penalty_zero_iff in Hn.
  destruct (key_penalty_total (key a) (key c)) as [p Hp].
  rewrite Hp in Sc, Hn. rewrite bind_Ok in Sc; cbv beta in Sc.
  destruct (py_float (Z.abs (xa - xc))) as [f | e] eqn:Hf; [| discriminate].
  rewrite bind_Ok in Sc; cbv beta in Sc.
  assert (qc = float_halves (2 * p + f)) as -> by congruence. clear Sc.
  apply py_float_Ok in Hf.
  pose proof (key_penalty_values _ _ _ Hp) as V.
  assert (p <> 0)%Z as P by congruence.
  pose proof (round53_nonneg _ (Z.abs_nonneg (xa - xc))) as Hf0.
  rewrite <- Hf in Hf0.
  pose proof (round53_lower (2 * p + f)) as L.
  assert (2 ^ 53 = 2 * 2 ^ 52)%Z as E53 by reflexivity.
  pose proof (Z.abs_nonneg (xa - xb)) as Hb0.
  unfold float_halves.
  remember (round53 (2 * p + f)) as r eqn:Er.
  remember (2 * 0 + Z.abs (xa - xb))%Z as d eqn:Ed.
  unfold Qlt. cbn [Qnum Qden]. lia.
Qed.

Lemma harmonic_beats_non_harmonic_witness :
  (float_halves (2 * 0 + 90) < float_halves (2 * 50 + 0))%Q.
Proof.
  apply (harmonic_beats_non_harmonic
           (song "C" 100) (song "G" 190) (song "F#" 100) 100 190 100);
    try reflexivity.
  - exists "8B", "9B", ["8B"; "9B"; "7B"; "8A"].
    repeat split; try reflexivity. simpl. tauto.
  - intros [c1 [c2 [ns [E1 [E2 [Hns Hin]]]]]].
    vm_compute in E1, E2. injection E1 as <-. injection E2 as <-.
    vm_compute in Hns. injection Hns as <-.
    simpl in Hin. intuition discriminate.
Defined.

(** ** More on the sequencer *)

(** X8.  The sequencer returns on at most one song and on songs whose
    tempos are integers of magnitude below 2^1022; when it returns on
    two or more songs, every tempo is numeric; and when it raises,
    either a tempo is [null] and the exception is the [TypeError] of
    the sort, or every tempo is numeric and the exception is the
    [OverflowError] of a score. *)
Theorem order_songs_greedy_outcomes (songs : list track) :
  ((List.length songs <= 1)%nat \/ Forall float_tempo songs ->
   exists out, order_songs_greedy songs = Ok out) /\
  ((exists out, order_songs_greedy songs = Ok out) ->
   (List.length songs <= 1)%nat \/ Forall numeric songs) /\
  (forall e, order_songs_greedy songs = Raise e ->
     (e = TypeError /\ Exists (fun t => bpm t = None) songs) \/
     (e = OverflowError /\ Forall numeric songs)).
Proof.
  split; [| split; [| apply order_songs_greedy_Raise]].
  - intros [H | H]; [| now apply order_songs_greedy_total].
    destruct songs as [| a [| b l]]; [exists []; reflexivity
                                        | exists [a]; reflexivity
                                        | simpl in H; lia].
  - intros [out H].
    destruct songs as [| a [| b l]]; [left; simpl; lia | left; simpl; lia |].
    right. rewrite order_songs_greedy_unfold in H.
    destruct (sorted_by_bpm (a :: b :: l)) as [s | e] eqn:E; [| discriminate].
    destruct (sorted_by_bpm_Ok _ _ E) as [P Hn].
    apply (Permutation_Forall (Permutation_sym P)). apply Hn. simpl. lia.
Qed.

Lemma order_songs_greedy_outcomes_witness :
  (exists out,
      order_songs_greedy [song "C" 120; song "G" 122; song "F#" 90] = Ok out) /\
  ((TypeError = TypeError /\
    Exists (fun t => bpm t = None)
           [mkTrack "broken.mp3" None None None; song "G" 128]) \/
   (TypeError = OverflowError /\
    Forall numeric [mkTrack "broken.mp3" None None None; song "G" 128])) /\
  ((OverflowError = TypeError /\
    Exists (fun t => bpm t = None) [song "C" huge; song "C" 0]) \/
   (OverflowError = OverflowError /\
    Forall numeric [song "C" huge; song "C" 0])).
Proof.
  split; [| split].
  - apply (proj1 (order_songs_greedy_outcomes
                    [song "C" 120; song "G" 122; song "F#" 90])).
    right.
    repeat (constructor;
            [eexists; split; [reflexivity | vm_compute; reflexivity] |]).
    constructor.
  - apply (proj2 (proj2 (order_songs_greedy_outcomes
                           [mkTrack "broken.mp3" None None None;
                            song "G" 128]))).
    vm_compute. reflexivity.
  - apply (proj2 (proj2 (order_songs_greedy_outcomes
                           [song "C" huge; song "C" 0]))).
    vm_compute. reflexivity.
Defined.

Lemma greedy_chain_split (t : track) (l : list track) :
  greedy_chain t l ->
  forall pre x y post,
    t :: l = pre ++ x :: y :: post ->
    exists q,
      transition_score x y = Ok q /\
      Forall (fun z => exists qz, transition_score x z = Ok qz /\ (q <= qz)%Q)
             post.
Proof.
  induction 1 as [t | t next rest q Hq Hrest Hchain IH];
    intros pre x y post E.
  - destruct pre as [| a [| b pre']]; discriminate.
  - destruct pre as [| a pre'].
    + injection E as -> -> ->. exists q. split; [exact Hq | exact Hrest].
    + injection E as _ E. exact (IH pre' x y post E).
Qed.

(** X9.  Whenever the sequencer returns, its output is a
    nearest-neighbour path: wherever a song [y] directly follows a song
    [x] in the output, every song placed after [y] has a score from [x]
    at least as large as that of [y].  It does return when every tempo
    is an integer of magnitude below 2^1022. *)
Theorem order_songs_greedy_nearest (songs : list track) :
  (forall out,
      order_songs_greedy songs = Ok out ->
      forall pre x y post,
        out = pre ++ x :: y :: post ->
        exists q,
          transition_score x y = Ok q /\
          Forall (fun z => exists qz,
                      transition_score x z = Ok qz /\ (q <= qz)%Q) post) /\
  (Forall float_tempo songs ->
   exists out, order_songs_greedy songs = Ok out).
Proof.
  split; [| apply order_songs_greedy_total].
  intros out H. destruct songs as [| a l].
  { simpl in H. injection H as <-.
    intros pre x y post E. destruct pre; discriminate. }
  assert (a :: l <> []) as Hne by discriminate.
  destruct (order_songs_greedy_inv _ _ Hne H) as [first [rest [_ Hrun]]].
  destruct (greedy_run_output _ _ _ Hrun) as [tl [-> [_ Hchain]]].
  apply (greedy_chain_split first tl). now apply Hchain.
Qed.

Lemma order_songs_greedy_nearest_witness :
  exists q,
    transition_score (song "F#" 90) (song "C" 120) = Ok q /\
    Forall (fun z => exists qz,
                transition_score (song "F#" 90) z = Ok qz /\ (q <= qz)%Q)
           [song "G" 122].
Proof.
  apply (proj1 (order_songs_greedy_nearest
                  [song "C" 120; song "G" 122; song "F#" 90])
               [song "F#" 90; song "C" 120; song "G" 122])
    with (pre := []).
  - vm_compute. reflexivity.
  - reflexivity.
Defined.

(** *** When the keys cannot tell the songs apart *)

Lemma tempo_numeric (t : track) (x : Z) : bpm t = Some x -> tempo t = x.
Proof. intros H. unfold tempo. now rewrite H. Qed.

Lemma insert_by_bpm_sorted (x : track) (l : list track) :
  numeric x -> Forall numeric l -> StronglySorted tempo_le l ->
  exists r,
    insert_by_bpm x l = Ok r /\ Permutation (x :: l) r /\
    StronglySorted tempo_le r.
Proof.
  intros Hx Hl Hs. induction Hl as [| y l Hy Hl IH].
  - exists [x]. repeat split; [apply Permutation_refl |].
    constructor; constructor.
  - inversion Hs as [| ? ? Hs' Hall]; subst.
    simpl. rewrite (py_lt_numeric y x Hy Hx). simpl.
    destruct (tempo y <? tempo x)%Z eqn:C.
    + apply Z.ltb_lt in C.
      destruct (IH Hs') as [r [-> [P Hr]]]. simpl.
      exists (y :: r). split; [reflexivity |]. split.
      * apply perm_trans with (y :: x :: l); [apply perm_swap |].
        now apply perm_skip.
      * constructor; [exact Hr |].
        apply (Permutation_Forall P). constructor; [| exact Hall].
        unfold tempo_le. lia.
    + apply Z.ltb_ge in C.
      exists (x :: y :: l). split; [reflexivity |].
      split; [apply Permutation_refl |].
      constructor; [exact Hs |].
      constructor; [exact C |].
      eapply Forall_impl; [| exact Hall].
      unfold tempo_le. intros; lia.
Qed.

Lemma sorted_by_bpm_sorted (l : list track) :
  Forall numeric l ->
  exists s,
    sorted_by_bpm l = Ok s /\ Permutation l s /\ StronglySorted tempo_le s.
Proof.
  intros Hl. induction Hl as [| a l Ha Hl IH].
  - exists []. repeat split; constructor.
  - destruct IH as [s [Hs [P Hss]]].
    assert (Forall numeric s) as Hns
      by (eapply Permutation_Forall; eassumption).
    destruct (insert_by_bpm_sorted a s Ha Hns Hss) as [r [Hr [Pr Hsr]]].
    exists r. simpl. rewrite Hs. simpl.
    split; [exact Hr |]. split; [| exact Hsr].
    apply perm_trans with (a :: s); [now apply perm_skip | exact Pr].
Qed.

Lemma min_scan_keep (keyf : track -> result Q) (best : track) (bestv : Q)
    (l : list track) :
  Forall (key_at_least keyf bestv) l -> min_scan keyf best bestv l = Ok best.
Proof.
  induction 1 as [| s l [v [Hv L]] Hl IH]; [reflexivity |].
  simpl. rewrite Hv. simpl.
  apply Qltb_ge in L. rewrite L. exact IH.
Qed.

Lemma track_eqb_refl (t : track) : track_eqb t t = true.
Proof.
  unfold track_eqb. destruct (track_eq_dec t t); [reflexivity | contradiction].
Qed.

Lemma exact_tempo_numeric (t : track) : exact_tempo t -> numeric t.
Proof. intros [b [H _]]. now exists b. Qed.

(** With one penalty [c] for every pair and exact scores, the loop
    takes the songs of an ascending list in their order. *)
Lemma greedy_loop_uniform (c : Z) (fuel : nat) :
  forall ordered tail songs,
    py_last ordered = Ok tail ->
    Forall exact_tempo (tail :: songs) ->
    StronglySorted tempo_le (tail :: songs) ->
    (forall a b, In a (tail :: songs) -> In b (tail :: songs) ->
                 key_penalty_of (CAMELOT_MAP_get (key a))
                                (CAMELOT_MAP_get (key b)) = Ok c) ->
    (List.length songs <= fuel)%nat ->
    greedy_loop fuel ordered songs = Ok (ordered ++ songs).
Proof.
  induction fuel as [| fuel IH]; intros ordered tail songs Hl Hn Hs Hc Hlen.
  - destruct songs; [| simpl in Hlen; lia]. now rewrite app_nil_r.
  - destruct songs as [| y ys]; [now rewrite app_nil_r |].
    inversion Hn as [| ? ? [xt [Ht Bt]] Hn']; subst.
    inversion Hn' as [| ? ? [xy [Hy By]] Hnys]; subst.
    inversion Hs as [| ? ? Hs' Hall]; subst.
    inversion Hs' as [| ? ? Hsys Hally]; subst.
    inversion Hall as [| ? ? Hty _]; subst.
    assert (2 ^ 52 = 2 * 2 ^ 51)%Z as E52 by reflexivity.
    assert (forall z xz, In z (y :: ys) -> bpm z = Some xz ->
              (Z.abs xz <= 2 ^ 51)%Z ->
              transition_score tail z = Ok ((2 * c + Z.abs (xt - xz)) # 2))
      as Hscore.
    { intros z xz Hz Hxz Bz.
      apply (transition_score_exact _ _ _ _ _ Ht Hxz); [lia |].
      apply Hc; [now left | now right]. }
    assert (greedy_step ordered (y :: ys) = Ok (ordered ++ [y], ys)) as Hstep.
    { unfold greedy_step. rewrite Hl. rewrite bind_Ok. cbv beta.
      unfold py_min.
      rewrite (Hscore y xy (or_introl eq_refl) Hy By).
      rewrite bind_Ok. cbv beta.
      rewrite min_scan_keep.
      - rewrite bind_Ok. cbv beta.
        unfold list_remove. rewrite track_eqb_refl. reflexivity.
      - rewrite Forall_forall. intros z Hz.
        rewrite Forall_forall in Hnys, Hally.
        destruct (Hnys z Hz) as [xz [Hxz Bz]].
        exists ((2 * c + Z.abs (xt - xz)) # 2).
        split; [apply Hscore; [now right | exact Hxz | exact Bz] |].
        specialize (Hally z Hz). unfold tempo_le in Hty, Hally.
        rewrite (tempo_numeric _ _ Ht), (tempo_numeric _ _ Hy) in Hty.
        rewrite (tempo_numeric _ _ Hy), (tempo_numeric _ _ Hxz) in Hally.
        unfold Qle. cbn [Qnum Qden]. lia. }
    rewrite greedy_loop_unfold, Hstep. rewrite bind_Ok. cbv beta.
    cbn [fst snd].
    rewrite (IH (ordered ++ [y]) y ys).
    + now rewrite <- app_assoc.
    + apply py_last_snoc.
    + exact Hn'.
    + exact Hs'.
    + intros a b Ia Ib. apply Hc; now right.
    + simpl in Hlen. lia.
Qed.

Lemma uniform_penalty (songs : list track) :
  Forall (fun t => CAMELOT_MAP_get (key t) = None) songs \/
  (exists k, Forall (fun t => key t = k) songs) ->
  exists c, forall a b, In a songs -> In b songs ->
    key_penalty_of (CAMELOT_MAP_get (key a)) (CAMELOT_MAP_get (key b)) = Ok c.
Proof.
  intros [H | [k H]]; rewrite Forall_forall in H.
  - exists 100%Z. intros a b Ia Ib. apply key_penalty_unknown.
    left. now apply H.
  - destruct (CAMELOT_MAP_get k) as [code |] eqn:E.
    + exists 0%Z. intros a b Ia Ib. apply key_penalty_zero_iff.
      apply harmonic_same_key with code.
      * now rewrite (H a Ia), (H b Ib).
      * now rewrite (H a Ia).
    + exists 100%Z. intros a b Ia Ib. apply key_penalty_unknown.
      left. now rewrite (H a Ia).
Qed.

(** X10.  When no key is in the table, or all songs carry the same
    key, and every tempo is an integer of magnitude at most 2^51, the
    keys cannot tell the songs apart and the sequencer returns the
    stable sort by tempo: its output is in ascending tempo. *)
Theorem order_songs_greedy_uniform_keys (songs : list track) :
  Forall exact_tempo songs ->
  Forall (fun t => CAMELOT_MAP_get (key t) = None) songs \/
  (exists k, Forall (fun t => key t = k) songs) ->
  exists out,
    order_songs_greedy songs = Ok out /\
    sorted_by_bpm songs = Ok out /\
    StronglySorted tempo_le out.
Proof.
  intros Hn Hk.
  assert (Forall numeric songs) as Hnum
    by (eapply Forall_impl; [| exact Hn]; apply exact_tempo_numeric).
  destruct (sorted_by_bpm_sorted songs Hnum) as [s [Hsort [P Hs]]].
  exists s. split; [| split; assumption].
  destruct songs as [| a l].
  { simpl in Hsort. injection Hsort as <-. reflexivity. }
  rewrite order_songs_greedy_unfold, Hsort. rewrite bind_Ok. cbv beta.
  destruct s as [| x rest];
    [apply Permutation_sym, Permutation_nil in P; discriminate |].
  destruct (uniform_penalty (a :: l) Hk) as [c Hc].
  rewrite (greedy_loop_uniform c (List.length rest) [x] x rest).
  - reflexivity.
  - reflexivity.
  - eapply Permutation_Forall; eassumption.
  - exact Hs.
  - intros u v Iu Iv.
    apply Hc; eapply Permutation_in;
      try eassumption; now apply Permutation_sym.
  - lia.
Qed.

Lemma order_songs_greedy_uniform_keys_witness :
  exists out,
    order_songs_greedy [song "E" 128; song "E" 90; song "E" 128; song "E" 100]
      = Ok out /\
    sorted_by_bpm [song "E" 128; song "E" 90; song "E" 128; song "E" 100]
      = Ok out /\
    StronglySorted tempo_le out.
Proof.
  apply (order_songs_greedy_uniform_keys
           [song "E" 128; song "E" 90; song "E" 128; song "E" 100]).
  - repeat (constructor;
            [eexists; split; [reflexivity | vm_compute; discriminate] |]).
    constructor.
  - right. exists (Some "E").
    repeat (constructor; [reflexivity |]); constructor.
Defined.
(** ** Analysis results and the two routes *)

Lemma notes_recognized (k : string) :
  In k notes -> exists code, CAMELOT_MAP_get (Some k) = Some code.
Proof.
  unfold notes. simpl. intros H.
  split_cases H; try contradiction; subst k; eexists; reflexivity.
Qed.

Section RouteFacts.

Variable file : Type.
Variable filename : file -> string.
Variable dsp : file -> result (Z * nat).
Variable extract_artwork : file -> option string.
Variable str_exn : exn -> string.

Lemma analyze_file_Ok (f : file) (b : Z) (k : string) :
  analyze_file file dsp f = Ok (b, k) ->
  exists i, dsp f = Ok (b, i) /\ nth_error notes i = Some k.
Proof.
  unfold analyze_file. destruct (dsp f) as [[b' i] | e]; [| discriminate].
  simpl. destruct (nth_error notes i) as [k' |] eqn:E; [| discriminate].
  intros H. injection H as <- <-. eauto.
Qed.

(** X11. A key that [analyze_file] returns is one of the twelve names
    of [notes], taken at an index below 12, and [CAMELOT_MAP] has a code
    for it: analysis never produces a key that the scorer treats as
    unknown. *)
Theorem analyze_file_key_recognized (f : file) (b : Z) (k : string) :
  analyze_file file dsp f = Ok (b, k) ->
  exists i code,
    dsp f = Ok (b, i) /\ (i < 12)%nat /\ nth_error notes i = Some k /\
    CAMELOT_MAP_get (Some k) = Some code.
Proof.
  intros H. destruct (analyze_file_Ok f b k H) as [i [Hd Hn]].
  destruct (notes_recognized k (nth_error_In _ _ Hn)) as [code Hc].
  exists i, code. repeat split; try assumption.
  change 12%nat with (List.length notes). apply nth_error_Some. congruence.
Qed.

Lemma upload_one_title (f : file) :
  title (upload_one file filename dsp extract_artwork f) = filename f.
Proof.
  unfold upload_one. destruct (analyze_file file dsp f) as [[b k] | e];
    reflexivity.
Qed.

Lemma upload_one_artwork (f : file) :
  artwork (upload_one file filename dsp extract_artwork f) = extract_artwork f.
Proof.
  unfold upload_one. destruct (analyze_file file dsp f) as [[b k] | e];
    reflexivity.
Qed.

Lemma upload_one_fields (f : file) :
  let t := upload_one file filename dsp extract_artwork f in
  (exists b k code,
      analyze_file file dsp f = Ok (b, k) /\
      bpm t = Some b /\ key t = Some k /\
      CAMELOT_MAP_get (key t) = Some code) \/
  (exists e,
      analyze_file file dsp f = Raise e /\ bpm t = None /\ key t = None).
Proof.
  unfold upload_one.
  destruct (analyze_file file dsp f) as [[b k] | e] eqn:E.
  - left. destruct (analyze_file_Ok f b k E) as [i [_ Hn]].
    destruct (notes_recognized k (nth_error_In _ _ Hn)) as [code Hc].
    exists b, k, code. simpl. auto.
  - right. exists e. simpl. auto.
Qed.

(** X12. [upload_files] answers 400 with the message "No files part"
    when the request has no such part; otherwise it answers 200 with one
    record per file, in upload order, titled by the file name and
    carrying the extracted artwork; in every record [bpm] is [null]
    exactly when [key] is, and a key that is present is in the table. *)
Theorem upload_files_records :
  upload_files file filename dsp extract_artwork None
  = (JError "No files part", 400%Z) /\
  forall fs : list file,
  exists records,
    upload_files file filename dsp extract_artwork (Some fs)
    = (JTracks records, 200%Z) /\
    List.length records = List.length fs /\
    map title records = map filename fs /\
    map artwork records = map extract_artwork fs /\
    Forall (fun t => (bpm t = None <-> key t = None) /\
                     (key t <> None -> CAMELOT_MAP_get (key t) <> None))
           records.
Proof.
  split; [reflexivity |]. intros fs.
  exists (map (upload_one file filename dsp extract_artwork) fs).
  split; [reflexivity |].
  split; [apply length_map |].
  split; [rewrite map_map; apply map_ext; apply upload_one_title |].
  split; [rewrite map_map; apply map_ext; apply upload_one_artwork |].
  rewrite Forall_forall. intros t Ht.
  apply in_map_iff in Ht. destruct Ht as [f [<- _]].
  destruct (upload_one_fields f)
    as [[b [k [code [_ [Hb [Hk Hc]]]]]] | [e [_ [Hb Hk]]]].
  - rewrite Hb, Hc, Hk. repeat split; intros; discriminate.
  - rewrite Hb, Hk. repeat split; intros; congruence.
Qed.

(** X13.  [order_songs] never lets an exception escape.  On at most
    one song, or on songs whose tempos are integers of magnitude below
    2^1022, it answers 200 with a permutation of the request; on two or
    more songs of which one has a [null] tempo it answers 500 with the
    text of a [TypeError]; and in every case it answers either 200 with
    a permutation of the request or 500 with the text of a [TypeError]
    or of an [OverflowError]. *)
Theorem order_songs_status (songs : list track) :
  ((List.length songs <= 1)%nat \/ Forall float_tempo songs ->
   exists out,
     order_songs str_exn songs = (JTracks out, 200%Z) /\
     Permutation songs out) /\
  ((2 <= List.length songs)%nat ->
   Exists (fun t => bpm t = None) songs ->
   order_songs str_exn songs = (JError (str_exn TypeError), 500%Z)) /\
  ((exists out,
       order_songs str_exn songs = (JTracks out, 200%Z) /\
       Permutation songs out) \/
   order_songs str_exn songs = (JError (str_exn TypeError), 500%Z) \/
   order_songs str_exn songs = (JError (str_exn OverflowError), 500%Z)).
Proof.
  unfold order_songs. split; [| split].
  - intros H.
    assert (exists out, order_songs_greedy songs = Ok out) as [out Hout].
    { destruct H as [H | H]; [| now apply order_songs_greedy_total].
      destruct songs as [| a [| b l]]; [exists []; reflexivity
                                          | exists [a]; reflexivity
                                          | simpl in H; lia]. }
    exists out. rewrite Hout. split; [reflexivity |].
    now apply order_songs_greedy_Ok_perm.
  - intros Hlen Hex.
    now rewrite (order_songs_greedy_null_bpm songs Hlen Hex).
  - destruct (order_songs_greedy songs) as [out | e] eqn:E.
    + left. exists out. split; [reflexivity |].
      now apply order_songs_greedy_Ok_perm.
    + right.
      destruct (order_songs_greedy_Raise _ _ E) as [[-> _] | [-> _]];
        [left | right]; reflexivity.
Qed.


(** X15. When two or more files are uploaded and the analysis of one of
    them fails, ordering the uploaded records answers 500: the record
    with the [null] tempo makes the sort raise. *)
Theorem upload_then_order_failure (fs : list file) :
  (2 <= List.length fs)%nat ->
  Exists (fun f => exists e, analyze_file file dsp f = Raise e) fs ->
  order_songs str_exn (map (upload_one file filename dsp extract_artwork) fs)
  = (JError (str_exn TypeError), 500%Z).
Proof.
  intros Hlen Hex. unfold order_songs.
  rewrite order_songs_greedy_null_bpm; [reflexivity | now rewrite length_map |].
  apply Exists_exists in Hex. destruct Hex as [f [Hf [e He]]].
  apply Exists_exists.
  exists (upload_one file filename dsp extract_artwork f).
  split; [now apply in_map |].
  destruct (upload_one_fields f)
    as [[b [k [code [Hok _]]]] | [e' [_ [Hb _]]]]; [congruence | exact Hb].
Qed.

End RouteFacts.

Lemma analyze_file_key_recognized_witness :
  exists i code,
    sample_dsp 7 = Ok (107%Z, i) /\ (i < 12)%nat /\
    nth_error notes i = Some "G" /\
    CAMELOT_MAP_get (Some "G") = Some code.
Proof.
  apply (analyze_file_key_recognized nat sample_dsp 7%nat 107%Z "G").
  reflexivity.
Defined.

Lemma upload_then_order_failure_witness :
  order_songs sample_str_exn
    (map (upload_one nat sample_filename sample_dsp sample_artwork)
         [3; 40]%nat)
  = (JError (sample_str_exn TypeError), 500%Z).
Proof.
  apply (upload_then_order_failure nat sample_filename sample_dsp
           sample_artwork sample_str_exn [3; 40]%nat).
  - simpl. lia.
  - apply Exists_cons_tl. apply Exists_cons_hd.
    exists ValueError. reflexivity.
Defined.


Lemma order_songs_status_witness :
  (exists out,
      order_songs sample_str_exn [song "C" 120; song "G" 122; song "F#" 90]
      = (JTracks out, 200%Z) /\
      Permutation [song "C" 120; song "G" 122; song "F#" 90] out) /\
  order_songs sample_str_exn
    [mkTrack "broken.mp3" None None None; song "G" 128]
  = (JError (sample_str_exn TypeError), 500%Z).
Proof.
  split.
  - apply (proj1 (order_songs_status sample_str_exn
                    [song "C" 120; song "G" 122; song "F#" 90])).
    right.
    repeat (constructor;
            [eexists; split; [reflexivity | vm_compute; reflexivity] |]).
    constructor.
  - apply (proj1 (proj2 (order_songs_status sample_str_exn
                           [mkTrack "broken.mp3" None None None;
                            song "G" 128]))).
    + simpl. lia.
    + apply Exists_cons_hd. reflexivity.
Defined.

(** Without the bound on the tempos the scores can overflow: two
    analysed songs with the tempos 10^309 and 0 make [order_songs]
    answer 500. *)
Example order_songs_overflow :
  order_songs sample_str_exn [song "C" huge; song "G" 0]
  = (JError (sample_str_exn OverflowError), 500%Z).
Proof. vm_compute. reflexivity. Qed.

(** ** Fields that the sequencer does not read *)

Section Relabel.

Variable f : track -> track.
Hypothesis f_bpm : forall t, bpm (f t) = bpm t.
Hypothesis f_key : forall t, key (f t) = key t.

Lemma transition_score_relabel (a b : track) :
  transition_score (f a) (f b) = transition_score a b.
Proof.
  unfold transition_score. now rewrite !f_bpm, !f_key.
Qed.

Lemma insert_by_bpm_relabel (x : track) (l r : list track) :
  insert_by_bpm x l = Ok r ->
  insert_by_bpm (f x) (map f l) = Ok (map f r).
Proof.
  revert r. induction l as [| y l IH]; simpl; intros r H.
  - now injection H as <-.
  - rewrite !f_bpm.
    destruct (py_lt (bpm y) (bpm x)) as [b | e]; [| discriminate].
    simpl in *. destruct b.
    + destruct (insert_by_bpm x l) as [r' | e]; [| discriminate].
      simpl in H. injection H as <-.
      rewrite (IH r' eq_refl). reflexivity.
    + now injection H as <-.
Qed.

Lemma sorted_by_bpm_relabel (l s : list track) :
  sorted_by_bpm l = Ok s -> sorted_by_bpm (map f l) = Ok (map f s).
Proof.
  revert s. induction l as [| x l IH]; simpl; intros s H.
  - now injection H as <-.
  - destruct (sorted_by_bpm l) as [s' | e]; [| discriminate].
    simpl in H. rewrite (IH s' eq_refl). simpl.
    now apply insert_by_bpm_relabel.
Qed.

Lemma min_scan_relabel (tail : track) (l : list track) :
  forall best bestv next,
    min_scan (fun s => transition_score tail s) best bestv l = Ok next ->
    min_scan (fun s => transition_score (f tail) s) (f best) bestv (map f l)
    = Ok (f next).
Proof.
  induction l as [| s l IH]; simpl; intros best bestv next H.
  - now injection H as <-.
  - rewrite transition_score_relabel.
    destruct (transition_score tail s) as [v | e]; [| discriminate].
    simpl in *. destruct (Qltb v bestv); now apply IH.
Qed.

Lemma py_min_relabel (tail : track) (l : list track) (next : track) :
  py_min (fun s => transition_score tail s) l = Ok next ->
  py_min (fun s => transition_score (f tail) s) (map f l) = Ok (f next).
Proof.
  destruct l as [| s l]; simpl; [discriminate |].
  rewrite transition_score_relabel.
  destruct (transition_score tail s) as [v | e]; [| discriminate].
  simpl. apply min_scan_relabel.
Qed.

Lemma py_last_relabel (l : list track) (t : track) :
  py_last l = Ok t -> py_last (map f l) = Ok (f t).
Proof.
  induction l as [| x l IH]; [discriminate |].
  destruct l as [| y l']; simpl in *.
  - intros H. now injection H as <-.
  - exact IH.
Qed.

Lemma greedy_step_relabel (ordered songs : list track)
    (st : list track * list track) :
  greedy_step ordered songs = Ok st ->
  greedy_step (map f ordered) (map f songs)
  = Ok (map f (fst st), map f (snd st)).
Proof.
  intros H.
  destruct (greedy_step_inv _ _ _ H)
    as [tail [before [next [after [q [Hl [Es [Hq [Hb [Ha [Hmin ->]]]]]]]]]]].
  unfold greedy_step.
  rewrite (py_last_relabel _ _ Hl). rewrite bind_Ok. cbv beta.
  rewrite (py_min_relabel _ _ _ Hmin). rewrite bind_Ok. cbv beta.
  rewrite Es at 1. rewrite map_app. cbn [map fst snd].
  rewrite list_remove_middle; [now rewrite !map_app |].
  rewrite Forall_forall. intros y Hy.
  apply in_map_iff in Hy. destruct Hy as [u [<- Hu]].
  rewrite Forall_forall in Hb. destruct (Hb u Hu) as [qu [Hqu L]].
  apply (key_above_neq (fun s => transition_score (f tail) s) q).
  - rewrite transition_score_relabel. exact Hq.
  - exists qu. split; [now rewrite transition_score_relabel | exact L].
Qed.

Lemma greedy_loop_relabel (fuel : nat) :
  forall ordered songs out,
    greedy_loop fuel ordered songs = Ok out ->
    greedy_loop fuel (map f ordered) (map f songs) = Ok (map f out).
Proof.
  induction fuel as [| fuel IH]; intros ordered songs out H.
  - destruct songs as [| s ss]; [| discriminate].
    simpl in *. now injection H as <-.
  - destruct songs as [| s ss]; [simpl in *; now injection H as <- |].
    rewrite greedy_loop_unfold in H.
    destruct (greedy_step ordered (s :: ss)) as [st | e] eqn:Hstep;
      [| discriminate].
    rewrite bind_Ok in H. cbv beta in H.
    change (map f (s :: ss)) with (f s :: map f ss).
    rewrite greedy_loop_unfold.
    change (f s :: map f ss) with (map f (s :: ss)).
    rewrite (greedy_step_relabel _ _ _ Hstep). rewrite bind_Ok. cbv beta.
    cbn [fst snd]. now apply IH.
Qed.

(** X16. The sequencer reads only [bpm] and [key]: changing the other
    fields of the songs (titles, artwork) by any map [f] that keeps
    those two changes the output by the same map, so the songs come out
    in the same positions. *)
Theorem order_songs_greedy_relabel (songs out : list track) :
  order_songs_greedy songs = Ok out ->
  order_songs_greedy (map f songs) = Ok (map f out).
Proof.
  intros H. destruct songs as [| a l].
  - simpl in *. now injection H as <-.
  - rewrite order_songs_greedy_unfold in H.
    destruct (sorted_by_bpm (a :: l)) as [s | e] eqn:E; [| discriminate].
    rewrite bind_Ok in H. cbv beta in H.
    change (map f (a :: l)) with (f a :: map f l).
    rewrite order_songs_greedy_unfold.
    change (f a :: map f l) with (map f (a :: l)).
    rewrite (sorted_by_bpm_relabel _ _ E). rewrite bind_Ok. cbv beta.
    destruct s as [| x rest]; [discriminate |].
    cbn [map]. rewrite length_map.
    now apply (greedy_loop_relabel (List.length rest) [x] rest out).
Qed.

End Relabel.

Lemma order_songs_greedy_relabel_witness :
  order_songs_greedy (map strip [song "C" 120; song "G" 122; song "F#" 90])
  = Ok (map strip [song "F#" 90; song "C" 120; song "G" 122]).
Proof.
  apply (order_songs_greedy_relabel strip).
  - reflexivity.
  - reflexivity.
  - vm_compute. reflexivity.
Defined.
